(** * MARO reinforcement-learning coordination: policy manager and actor

    A shallow embedding of
      - [maro/rl/training/policy_manager.py] ([LocalPolicyManager]), and
      - [maro/rl/learning/asynchronous/actor.py] ([actor]),
    together with the properties of the update gate, the delta returned by
    [get_state], the construction checks and the actor's message protocol.

    Python dictionaries keyed by policy name are finite maps ([gmap]); the
    order in which a dictionary is walked is kept as a list of keys.  Python
    integers are [Z].  An exception is a value of [exn] returned next to the
    state reached when it was raised. *)

From stdpp Require Import gmap strings list sorting.

Open Scope Z_scope.

(** ** Exceptions *)

Inductive exn : Type :=
  | ValueError
  | KeyError (key : string)
  | ZeroDivisionError
  | IndexError.

Global Instance exn_eq_dec : EqDecision exn.
Proof. solve_decision. Defined.

Inductive result (A : Type) : Type :=
  | Ok (a : A)
  | Raise (e : exn).
Arguments Ok {A} a.
Arguments Raise {A} e.

(** ** The policy manager *)

(** [PolicyUpdateTrigger = namedtuple(..., ["min_new_experiences",
    "num_warmup_experiences"], defaults=[1])]. *)
Record PolicyUpdateTrigger : Type := mkTrigger {
  min_new_experiences : Z;
  num_warmup_experiences : Z
}.

(** The interface of [maro.rl.experience] and [maro.rl.policy] the manager
    relies on.  These modules are collaborators of the manager: an
    experience set exposes [size], an experience memory exposes [size] and
    [put], a policy exposes [get_state], and, when it is trainable,
    [update], which may consume the memory and changes the exported state. *)
Class Collaborators : Type := {
  ExperienceSet : Type;
  exp_size : ExperienceSet → nat;
  ExperienceMemory : Type;
  mem_size : ExperienceMemory → Z;
  mem_put : ExperienceMemory → ExperienceSet → ExperienceMemory;
  PolicyState : Type;
  policy_update : ExperienceMemory → PolicyState → ExperienceMemory * PolicyState
}.

Module PolicyManager.
Section Manager.
Context `{Collaborators}.

(** A policy object.  [experience_memory = None] stands for
    [not hasattr(policy, "experience_memory")], [has_update = false] for
    [not hasattr(policy, "update")]; [policy_state] is what
    [policy.get_state()] returns. *)
Record Policy : Type := mkPolicy {
  experience_memory : option ExperienceMemory;
  has_update : bool;
  policy_state : PolicyState
}.

(** The [update_trigger] argument of the constructor: [None], one
    [PolicyUpdateTrigger] for all updatable policies, or a dictionary. *)
Inductive UpdateTriggerArg : Type :=
  | TriggerNone
  | TriggerSingle (t : PolicyUpdateTrigger)
  | TriggerDict (d : gmap string PolicyUpdateTrigger).

(** The attributes of a [LocalPolicyManager].  [policy_dict] is the store of
    the policy objects, keyed by name; [_names] keeps the key order.
    [_updatable_policy_dict] holds the very same objects as [policy_dict], so
    it is kept as its list of keys (in dictionary order) and its values are
    read through [policy_dict]. *)
Record LocalPolicyManager : Type := mkManager {
  _names : list string;
  policy_dict : gmap string Policy;
  _updatable_policy_dict : list string;
  _update_trigger : gmap string PolicyUpdateTrigger;
  _new_exp_counter : gmap string Z;
  _updated_policy_ids : gset string
}.

Definition updatable (policy : Policy) : bool :=
  bool_decide (is_Some (experience_memory policy)) && has_update policy.

(** [LocalPolicyManager.__init__].  The argument [policy_dict] is the
    dictionary as its list of items (the keys of a dictionary are
    distinct). *)
Definition __init__ (policy_items : list (string * Policy))
    (update_trigger : UpdateTriggerArg) : result LocalPolicyManager :=
  let keys : gset string := list_to_set policy_items.*1 in
  let invalid :=
    match update_trigger with
    | TriggerDict d => bool_decide (¬ dom d ⊆ keys)
    | _ => false
    end in
  if invalid then Raise ValueError
  else
    let updatable_ids := (filter (λ kv, updatable kv.2 = true) policy_items).*1 in
    let triggers :=
      match update_trigger with
      | TriggerNone =>
          let default_trigger := mkTrigger 1 1 in
          list_to_map ((λ policy_id, (policy_id, default_trigger)) <$> updatable_ids)
      | TriggerDict d => d
      | TriggerSingle t =>
          list_to_map ((λ policy_id, (policy_id, t)) <$> updatable_ids)
      end in
    Ok {| _names := policy_items.*1;
          policy_dict := list_to_map policy_items;
          _updatable_policy_dict := updatable_ids;
          _update_trigger := triggers;
          _new_exp_counter := ∅;
          _updated_policy_ids := ∅ |}.

Definition names (m : LocalPolicyManager) : list string := _names m.

(** [self._new_exp_counter[policy_id]] on a [defaultdict(int)]. *)
Definition new_exp_counter (m : LocalPolicyManager) (policy_id : string) : Z :=
  default 0 (_new_exp_counter m !! policy_id).

Definition set_policy (policy_id : string) (policy : Policy)
    (m : LocalPolicyManager) : LocalPolicyManager :=
  {| _names := _names m;
     policy_dict := <[policy_id := policy]> (policy_dict m);
     _updatable_policy_dict := _updatable_policy_dict m;
     _update_trigger := _update_trigger m;
     _new_exp_counter := _new_exp_counter m;
     _updated_policy_ids := _updated_policy_ids m |}.

Definition set_counter (policy_id : string) (n : Z)
    (m : LocalPolicyManager) : LocalPolicyManager :=
  {| _names := _names m;
     policy_dict := policy_dict m;
     _updatable_policy_dict := _updatable_policy_dict m;
     _update_trigger := _update_trigger m;
     _new_exp_counter := <[policy_id := n]> (_new_exp_counter m);
     _updated_policy_ids := _updated_policy_ids m |}.

Definition set_updated (ids : gset string)
    (m : LocalPolicyManager) : LocalPolicyManager :=
  {| _names := _names m;
     policy_dict := policy_dict m;
     _updatable_policy_dict := _updatable_policy_dict m;
     _update_trigger := _update_trigger m;
     _new_exp_counter := _new_exp_counter m;
     _updated_policy_ids := ids |}.

(** First loop of [on_experiences]:
    [for policy_id, exp in exp_by_policy.items(): ...].  The lookup
    [self.policy_dict[policy_id]] raises [KeyError] on an unknown name; the
    entries stored before it stay stored. *)
Fixpoint store_experiences (exp_items : list (string * ExperienceSet))
    (m : LocalPolicyManager) : LocalPolicyManager * option exn :=
  match exp_items with
  | [] => (m, None)
  | (policy_id, exp) :: rest =>
      match policy_dict m !! policy_id with
      | None => (m, Some (KeyError policy_id))
      | Some policy =>
          match experience_memory policy with
          | Some memory =>
              let m1 := set_counter policy_id
                          (new_exp_counter m policy_id + Z.of_nat (exp_size exp)) m in
              let m2 := set_policy policy_id
                          (mkPolicy (Some (mem_put memory exp))
                                    (has_update policy) (policy_state policy)) m1 in
              store_experiences rest m2
          | None => store_experiences rest m
          end
      end
  end.

(** The condition of the [if] in the second loop. *)
Definition update_due (m : LocalPolicyManager) (policy_id : string)
    (memory : ExperienceMemory) : bool :=
  match _update_trigger m !! policy_id with
  | None => true
  | Some trigger =>
      bool_decide (num_warmup_experiences trigger ≤ mem_size memory)
      && bool_decide (min_new_experiences trigger ≤ new_exp_counter m policy_id)
  end.

(** The body of the [if]: [policy.update()], counter reset, and the name
    added to [_updated_policy_ids]. *)
Definition run_update (policy_id : string) (policy : Policy)
    (memory : ExperienceMemory) (m : LocalPolicyManager) : LocalPolicyManager :=
  let '(memory', state') := policy_update memory (policy_state policy) in
  set_updated ({[policy_id]} ∪ _updated_policy_ids m)
    (set_counter policy_id 0
       (set_policy policy_id (mkPolicy (Some memory') (has_update policy) state') m)).

(** Second loop of [on_experiences]:
    [for policy_id, policy in self._updatable_policy_dict.items(): ...].
    The result lists, in order, the policies whose [update] was called.
    The [print] reads the counter; a [defaultdict] then stores a zero for a
    missing key, which [new_exp_counter] reads as zero anyway.  An
    entry of [_updatable_policy_dict] always is a policy of [policy_dict]
    with an experience memory (see [manager_ok]); the two other branches
    are there to make the function total. *)
Fixpoint update_policies (ids : list string) (m : LocalPolicyManager)
    : LocalPolicyManager * list string :=
  match ids with
  | [] => (m, [])
  | policy_id :: rest =>
      match policy_dict m !! policy_id with
      | Some policy =>
          match experience_memory policy with
          | Some memory =>
              if update_due m policy_id memory then
                let '(m', updated) :=
                  update_policies rest (run_update policy_id policy memory m) in
                (m', policy_id :: updated)
              else update_policies rest m
          | None => update_policies rest m
          end
      | None => update_policies rest m
      end
  end.

(** What a call of [on_experiences] leaves behind: the manager, the
    policies updated by this call, and the exception raised, if any. *)
Record Submitted : Type := mkSubmitted {
  manager : LocalPolicyManager;
  updates : list string;
  raised : option exn
}.

Definition on_experiences (m : LocalPolicyManager)
    (exp_by_policy : list (string * ExperienceSet)) : Submitted :=
  match store_experiences exp_by_policy m with
  | (m1, Some e) => mkSubmitted m1 [] (Some e)
  | (m1, None) =>
      let '(m2, updated) := update_policies (_updatable_policy_dict m1) m1 in
      mkSubmitted m2 updated None
  end.

(** [get_state]: the dictionary comprehension over [_updated_policy_ids],
    then [self._updated_policy_ids.clear()].  The lookup
    [self.policy_dict[policy_id]] raises [KeyError] before the set is
    cleared. *)
Fixpoint collect_states (store : gmap string Policy) (ids : list string)
    : result (gmap string PolicyState) :=
  match ids with
  | [] => Ok ∅
  | policy_id :: rest =>
      match store !! policy_id with
      | None => Raise (KeyError policy_id)
      | Some policy =>
          match collect_states store rest with
          | Ok d => Ok (<[policy_id := policy_state policy]> d)
          | Raise e => Raise e
          end
      end
  end.

Definition get_state (m : LocalPolicyManager)
    : result (gmap string PolicyState) * LocalPolicyManager :=
  match collect_states (policy_dict m) (elements (_updated_policy_ids m)) with
  | Ok policy_state_dict => (Ok policy_state_dict, set_updated ∅ m)
  | Raise e => (Raise e, m)
  end.

(** *** Invariant of the manager *)

(** Which of the two optional attributes a policy has. *)
Definition policy_shape (policy : Policy) : bool * bool :=
  (bool_decide (is_Some (experience_memory policy)), has_update policy).

Definition shape (m : LocalPolicyManager) : gmap string (bool * bool) :=
  policy_shape <$> policy_dict m.

(** [_updatable_policy_dict] lists, once each, the policies having both
    attributes, and only managed policies are marked as updated. *)
Definition manager_ok (m : LocalPolicyManager) : Prop :=
  NoDup (_updatable_policy_dict m)
  ∧ (∀ policy_id, policy_id ∈ _updatable_policy_dict m
                  ↔ shape m !! policy_id = Some (true, true))
  ∧ _updated_policy_ids m ⊆ dom (policy_dict m).

(** The outcome of the [if] of the second loop for one policy. *)
Definition should_update (m : LocalPolicyManager) (policy_id : string) : bool :=
  match policy_dict m !! policy_id with
  | Some policy =>
      match experience_memory policy with
      | Some memory => update_due m policy_id memory
      | None => false
      end
  | None => false
  end.

(** The record count a call delivers to a policy: the sizes of the batches
    filed under its name. *)
Definition delivered (exp_items : list (string * ExperienceSet))
    (policy_id : string) : Z :=
  foldr (λ kv acc, if decide (kv.1 = policy_id)
                   then Z.of_nat (exp_size kv.2) + acc else acc) 0 exp_items.

Definition buffer_capable (m : LocalPolicyManager) (policy_id : string) : Prop :=
  ∃ policy, policy_dict m !! policy_id = Some policy
            ∧ is_Some (experience_memory policy).

End Manager.
End PolicyManager.

(** ** The actor *)

Module Actor.

(** [MsgTag] values used by the actor. *)
Inductive MsgTag : Type :=
  | GET_INITIAL_POLICY_STATE
  | COLLECT_DONE
  | DONE.

(** The environment wrapper a call goes to. *)
Inductive EnvRef : Type :=
  | TrainingEnv
  | EvaluationEnv.

(** The calls the actor makes on its collaborators (the proxy, the
    environment wrappers and the agent wrapper), in the order of the source.
    [ProxySend] is the blocking [proxy.send(msg)[0]]; its second argument is
    the policy version in the message body, if the message has one.
    [ProxyISend] is the non-blocking [proxy.isend].  Calls to the logger and
    to [time.time()] are left out. *)
Inductive Event (Version : Type) : Type :=
  | ProxyCreate
  | ProxySend (tag : MsgTag) (version : option Version)
  | ProxyISend (tag : MsgTag)
  | ProxyClose
  | EnvReset (env : EnvRef)
  | EnvStart (env : EnvRef)
  | EnvStep (env : EnvRef)
  | EnvGetExperiences (env : EnvRef)
  | AgentExplore
  | AgentExploit
  | AgentChooseAction (env : EnvRef)
  | AgentStoreExperiences
  | AgentGetExperiencesByPolicy
  | AgentSetPolicyStates
  | AgentExplorationStep.
Arguments ProxyCreate {Version}.
Arguments ProxySend {Version} tag version.
Arguments ProxyISend {Version} tag.
Arguments ProxyClose {Version}.
Arguments EnvReset {Version} env.
Arguments EnvStart {Version} env.
Arguments EnvStep {Version} env.
Arguments EnvGetExperiences {Version} env.
Arguments AgentExplore {Version}.
Arguments AgentExploit {Version}.
Arguments AgentChooseAction {Version} env.
Arguments AgentStoreExperiences {Version}.
Arguments AgentGetExperiencesByPolicy {Version}.
Arguments AgentSetPolicyStates {Version}.
Arguments AgentExplorationStep {Version}.

(** The world around the actor: the joint state of the policy server, the
    environments and the agent wrapper.  [react] is the effect of a call,
    [env_state] the truth value of [env_wrapper.state], and [reply_version]
    the entry [reply.body[MsgKey.VERSION]] of the last reply. *)
Class Surroundings : Type := {
  Version : Type;
  World : Type;
  react : Event Version → World → World;
  env_state : EnvRef → World → bool;
  reply_version : World → Version
}.

(** The [eval_schedule] argument: [None], an integer, or a list. *)
Inductive EvalScheduleArg : Type :=
  | ScheduleNone
  | ScheduleInt (period : Z)
  | ScheduleList (episodes : list Z).

(** The arguments of [actor] that steer its control flow.  [env_wrapper] is
    [TrainingEnv]; [eval_env_wrapper] is [None] or an environment. *)
Record ActorArgs : Type := mkArgs {
  num_episodes : Z;
  num_steps : Z;
  eval_env_wrapper : option EnvRef;
  eval_schedule : EvalScheduleArg
}.

(** The evaluation schedule, lines 65 to 76 of [actor.py].  [//] is floor
    division, [range(1, n + 1)] is [seqZ 1 n], and [list.sort()] returns the
    ascending permutation of the list. *)
Definition evaluation_schedule (num_episodes : Z)
    (eval_schedule : EvalScheduleArg) : result (list Z) :=
  let computed :=
    match eval_schedule with
    | ScheduleNone => Ok []
    | ScheduleInt period =>
        if decide (period = 0) then Raise ZeroDivisionError
        else
          let num_eval_schedule := num_episodes `div` period in
          Ok ((λ i, period * i) <$> seqZ 1 num_eval_schedule)
    | ScheduleList episodes => Ok (merge_sort Z.le episodes)
    end in
  match computed with
  | Raise e => Raise e
  | Ok schedule =>
      if bool_decide (schedule = []) || bool_decide (Some num_episodes ≠ last schedule)
      then Ok (schedule ++ [num_episodes])
      else Ok schedule
  end.

(** How a run ends: the function returned, raised an exception, or a
    [while] loop was still running when the fuel was spent. *)
Inductive Outcome (A : Type) : Type :=
  | Returned (a : A)
  | Raised (e : exn)
  | OutOfFuel.
Arguments Returned {A} a.
Arguments Raised {A} e.
Arguments OutOfFuel {A}.

Section Run.
Context `{Surroundings}.

(** *** A monad for the run: the calls made, the world, and how it ended *)

Definition M (A : Type) : Type :=
  World → list (Event Version) * World * Outcome A.

Definition ret {A} (a : A) : M A := λ w, ([], w, Returned a).

Definition bind {A B} (c : M A) (k : A → M B) : M B := λ w,
  let '(t1, w1, o1) := c w in
  match o1 with
  | Returned a => let '(t2, w2, o2) := k a w1 in (t1 ++ t2, w2, o2)
  | Raised e => (t1, w1, Raised e)
  | OutOfFuel => (t1, w1, OutOfFuel)
  end.

(** A call on a collaborator returns: exceptions raised inside the proxy,
    the environments or the agent wrapper are not part of the model. *)
Definition call (e : Event Version) : M unit := λ w, ([e], react e w, Returned tt).
Definition observe {A} (f : World → A) : M A := λ w, ([], w, Returned (f w)).
Definition raise {A} (e : exn) : M A := λ w, ([], w, Raised e).
Definition out_of_fuel {A} : M A := λ w, ([], w, OutOfFuel).
Definition lift {A} (r : result A) : M A :=
  match r with Ok a => ret a | Raise e => raise e end.

Notation "x ← c ; k" := (bind c (λ x, k))
  (at level 20, c at level 100, k at level 200, only parsing).
Notation "c ;; k" := (bind c (λ _, k))
  (at level 100, k at level 200, right associativity).

(** *** The loops of [actor] *)

(** [while env_wrapper.state and steps_to_go:] (lines 101 to 103). *)
Fixpoint rollout (fuel : nat) (steps_to_go : Z) : M unit :=
  match fuel with
  | O => out_of_fuel
  | S fuel' =>
      state ← observe (env_state TrainingEnv);
      if state && negb (steps_to_go =? 0) then
        call (AgentChooseAction TrainingEnv);;
        call (EnvStep TrainingEnv);;
        rollout fuel' (steps_to_go - 1)
      else ret tt
  end.

(** [while env_wrapper.state:] (lines 94 to 121), one segment per turn.
    [n] bounds the number of segments, [fuel] each roll-out. *)
Fixpoint segments (n fuel : nat) (num_steps : Z) (policy_version : Version)
    : M Version :=
  match n with
  | O => out_of_fuel
  | S n' =>
      state ← observe (env_state TrainingEnv);
      if state then
        rollout fuel num_steps;;
        call (EnvGetExperiences TrainingEnv);;
        call AgentStoreExperiences;;
        call AgentGetExperiencesByPolicy;;
        call (ProxySend COLLECT_DONE (Some policy_version));;
        policy_version' ← observe reply_version;
        call AgentSetPolicyStates;;
        segments n' fuel num_steps policy_version'
      else ret policy_version
  end.

(** [while eval_env_wrapper.state:] (lines 143 to 145). *)
Fixpoint evaluate (fuel : nat) (eval_env : EnvRef) : M unit :=
  match fuel with
  | O => out_of_fuel
  | S fuel' =>
      state ← observe (env_state eval_env);
      if state then
        call (AgentChooseAction eval_env);;
        call (EnvStep eval_env);;
        evaluate fuel' eval_env
      else ret tt
  end.

(** The main loop [for ep in range(1, num_episodes + 1):] over the episodes
    still to run, with the loop-carried [eval_point_index] and
    [policy_version]. *)
Fixpoint episodes (eps : list Z) (fuel : nat) (num_steps : Z)
    (eval_env : EnvRef) (schedule : list Z)
    (eval_point_index : nat) (policy_version : Version) : M unit :=
  match eps with
  | [] => ret tt
  | ep :: rest =>
      call AgentExplore;;
      call (EnvReset TrainingEnv);;
      call (EnvStart TrainingEnv);;
      policy_version' ← segments fuel fuel num_steps policy_version;
      call AgentExplorationStep;;
      match schedule !! eval_point_index with
      | None => raise IndexError
      | Some point =>
          if decide (ep = point) then
            call AgentExploit;;
            call (EnvReset eval_env);;
            call (EnvStart eval_env);;
            evaluate fuel eval_env;;
            episodes rest fuel num_steps eval_env schedule
              (S eval_point_index) policy_version'
          else
            episodes rest fuel num_steps eval_env schedule
              eval_point_index policy_version'
      end
  end.

(** [actor].  [fuel] bounds the length of every [while] loop. *)
Definition actor (fuel : nat) (args : ActorArgs) : M unit :=
  if decide (num_steps args = 0 ∨ num_steps args < -1) then raise ValueError
  else
    let eval_env :=
      match eval_env_wrapper args with
      | None => TrainingEnv
      | Some env => env
      end in
    call ProxyCreate;;
    schedule ← lift (evaluation_schedule (num_episodes args) (eval_schedule args));
    call (ProxySend GET_INITIAL_POLICY_STATE None);;
    policy_version ← observe reply_version;
    call AgentSetPolicyStates;;
    episodes (seqZ 1 (num_episodes args)) fuel (num_steps args) eval_env
      schedule 0%nat policy_version;;
    call (ProxyISend DONE);;
    call ProxyClose.

(** *** Classes of calls *)

Definition is_initial_request (e : Event Version) : bool :=
  match e with
  | ProxySend GET_INITIAL_POLICY_STATE _ => true
  | ProxyISend GET_INITIAL_POLICY_STATE => true
  | _ => false
  end.

Definition is_done_message (e : Event Version) : bool :=
  match e with
  | ProxySend DONE _ => true
  | ProxyISend DONE => true
  | _ => false
  end.

Definition is_env_call (e : Event Version) : bool :=
  match e with
  | EnvReset _ | EnvStart _ | EnvStep _ | EnvGetExperiences _ => true
  | _ => false
  end.

Definition is_episode_end (e : Event Version) : bool :=
  match e with
  | AgentExplorationStep => true
  | _ => false
  end.

Definition is_evaluation (e : Event Version) : bool :=
  match e with
  | AgentExploit => true
  | _ => false
  end.

(** The calls made inside the loops: none of them is a request for the
    initial state or a done message. *)
Definition loop_call (e : Event Version) : Prop :=
  is_initial_request e = false ∧ is_done_message e = false.

(** The calls made inside a [while] loop do not end an episode either. *)
Definition inner_call (e : Event Version) : Prop :=
  loop_call e ∧ is_episode_end e = false.

(** A computation whose calls all satisfy [P] and whose exceptions all
    satisfy [E]. *)
Definition confined {A} (P : Event Version → Prop) (E : exn → Prop)
    (c : M A) : Prop :=
  ∀ w, Forall P (c w).1.1 ∧ ∀ e, (c w).2 = Raised e → E e.

(** How many calls of a class a run has made. *)
Definition count_calls (p : Event Version → bool) (t : list (Event Version)) : nat :=
  length (filter (λ e, p e = true) t).

(** The number of episodes brought to their end: the calls of
    [agent_wrapper.exploration_step()]. *)
Definition episode_ends (t : list (Event Version)) : nat :=
  count_calls is_episode_end t.

(** The calls that leave the progress of an episode alone: all but
    [reset], [start] and [step] of an environment. *)
Definition is_quiet (e : Event Version) : bool :=
  match e with
  | EnvReset _ | EnvStart _ | EnvStep _ => false
  | _ => true
  end.

(** The input condition under which the schedule is ascending. *)
Definition schedule_input_ok (num_episodes : Z) (arg : EvalScheduleArg) : Prop :=
  match arg with
  | ScheduleNone => True
  | ScheduleInt period => 0 < period
  | ScheduleList episodes => NoDup episodes ∧ Forall (λ ep, ep ≤ num_episodes) episodes
  end.

End Run.

End Actor.

(** ** Further classes of calls and a balance of calls *)

Module Calls.
Import Actor.
Section Calls.
Context `{Surroundings}.

Definition is_env_step (e : Event Version) : bool :=
  match e with
  | EnvStep _ => true
  | _ => false
  end.

Definition is_get_experiences (e : Event Version) : bool :=
  match e with
  | EnvGetExperiences _ => true
  | _ => false
  end.

Definition is_collect_done (e : Event Version) : bool :=
  match e with
  | ProxySend COLLECT_DONE _ => true
  | _ => false
  end.

Definition is_round_trip (e : Event Version) : bool :=
  match e with
  | ProxySend _ _ => true
  | _ => false
  end.

Definition is_set_policy_states (e : Event Version) : bool :=
  match e with
  | AgentSetPolicyStates => true
  | _ => false
  end.

(** A call that names the evaluation environment. *)
Definition touches_evaluation_env (e : Event Version) : bool :=
  match e with
  | EnvReset EvaluationEnv | EnvStart EvaluationEnv | EnvStep EvaluationEnv
  | EnvGetExperiences EvaluationEnv | AgentChooseAction EvaluationEnv => true
  | _ => false
  end.

(** The calls of the roll-out loop, of a segment, of the evaluation loop on
    [eval_env], and of an episode with its evaluation. *)
Definition in_rollout (e : Event Version) : bool :=
  match e with
  | AgentChooseAction TrainingEnv | EnvStep TrainingEnv => true
  | _ => false
  end.

Definition is_hand_over (e : Event Version) : bool :=
  match e with
  | EnvGetExperiences TrainingEnv
  | AgentStoreExperiences
  | AgentGetExperiencesByPolicy
  | ProxySend COLLECT_DONE (Some _)
  | AgentSetPolicyStates => true
  | _ => false
  end.

Definition in_segment (e : Event Version) : bool :=
  in_rollout e || is_hand_over e.

Definition env_ref_eqb (a b : EnvRef) : bool :=
  match a, b with
  | TrainingEnv, TrainingEnv | EvaluationEnv, EvaluationEnv => true
  | _, _ => false
  end.

Definition in_evaluation (eval_env : EnvRef) (e : Event Version) : bool :=
  match e with
  | AgentChooseAction env | EnvStep env => env_ref_eqb env eval_env
  | _ => false
  end.

Definition in_episode (eval_env : EnvRef) (e : Event Version) : bool :=
  in_segment e || in_evaluation eval_env e
  || match e with
     | AgentExplore | AgentExplorationStep | AgentExploit => true
     | EnvReset env | EnvStart env =>
         env_ref_eqb env TrainingEnv || env_ref_eqb env eval_env
     | _ => false
     end.

(** The calls by which a segment hands its experiences over, in order. *)
Definition hand_over (policy_version : Version) : list (Event Version) :=
  [EnvGetExperiences TrainingEnv; AgentStoreExperiences;
   AgentGetExperiencesByPolicy;
   ProxySend COLLECT_DONE (Some policy_version); AgentSetPolicyStates].

(** The calls of class [p] counted against the calls of class [q]. *)
Definition balance (p q : Event Version → bool) (t : list (Event Version)) : Z :=
  Z.of_nat (count_calls p t) - Z.of_nat (count_calls q t).

(** A computation whose run, however it ends, leaves the balance [n]. *)
Definition weighs {A} (p q : Event Version → bool) (n : Z) (c : M A) : Prop :=
  ∀ w, balance p q (c w).1.1 = n.

(** A computation that raises no exception. *)
Definition never_raises {A} (c : M A) : Prop :=
  ∀ w e, (c w).2 ≠ Raised e.

End Calls.
End Calls.

(** ** Action records of a policy ([maro/rl_v3/policy/abs_policy.py]) *)

Module RLPolicy.
Section Aux.
(** The entries of the arrays of actions, values and log-probabilities. *)
Context {Action Value Logp : Type}.

(** [ActionWithAux] of [maro.rl_v3.utils], as it is built by keyword. *)
Record ActionWithAux : Type := mkActionWithAux {
  action : Action;
  value : option Value;
  logp : option Logp
}.

(** [array[i] if array is not None else None]; an index beyond the first
    axis of the array raises [IndexError]. *)
Definition entry_or_none {A} (array : option (list A)) (i : nat)
    : result (option A) :=
  match array with
  | None => Ok None
  | Some entries =>
      match entries !! i with
      | Some x => Ok (Some x)
      | None => Raise IndexError
      end
  end.

(** The body of the loop [for i in range(size):] of
    [RLPolicy.get_actions_with_aux], over the indices still to visit. *)
Fixpoint collect_aux (actions : list Action) (values : option (list Value))
    (logps : option (list Logp)) (indices : list nat)
    (actions_with_aux : list ActionWithAux) : result (list ActionWithAux) :=
  match indices with
  | [] => Ok actions_with_aux
  | i :: rest =>
      match actions !! i with
      | None => Raise IndexError
      | Some a =>
          match entry_or_none values i with
          | Raise e => Raise e
          | Ok v =>
              match entry_or_none logps i with
              | Raise e => Raise e
              | Ok l =>
                  collect_aux actions values logps rest
                    (actions_with_aux ++ [mkActionWithAux a v l])
              end
          end
      end
  end.

(** [RLPolicy.get_actions_with_aux], from the arrays returned by
    [get_actions_with_logps] and [get_values_by_states_and_actions]. *)
Definition get_actions_with_aux (actions : list Action)
    (values : option (list Value)) (logps : option (list Logp))
    : result (list ActionWithAux) :=
  let size := length actions in
  collect_aux actions values logps (seq 0 size) [].

(** The record for index [i], if [i] is an index of [actions]. *)
Definition aux_at (actions : list Action) (values : option (list Value))
    (logps : option (list Logp)) (i : nat) : option ActionWithAux :=
  a ← actions !! i;
  Some (mkActionWithAux a (values ≫= (λ entries, entries !! i))
          (logps ≫= (λ entries, entries !! i))).

(** An optional array that covers [size] entries. *)
Definition covers {A} (array : option (list A)) (size : nat) : Prop :=
  match array with
  | None => True
  | Some entries => (size ≤ length entries)%nat
  end.

End Aux.
Arguments ActionWithAux : clear implicits.
End RLPolicy.

(** ** Node pools and job details ([maro/cli/k8s/executors/k8s_aks_executor.py]) *)

Module AksExecutor.

(** The calls on [AzureController] that change the cluster. *)
Inductive AzureCall : Type :=
  | add_nodepool (resource_group aks_name nodepool_name : string)
      (node_count : Z) (node_size : string)
  | scale_nodepool (resource_group aks_name nodepool_name : string)
      (node_count : Z).

(** How [scale_node] ends: [BadRequestError], or the calls it made. *)
Inductive Scaled : Type :=
  | BadRequestError
  | Called (calls : list AzureCall).

Section Nodes.
(** The node pools listed by [AzureController.list_nodepool] and the VM sizes
    listed by [AzureController.list_vm_sizes], with the entries the executor
    reads, and [NameCreator.create_name_with_md5(prefix="pool", ...)]. *)
Context {NodePool VmSize : Type}.
Variable pool_name : NodePool → string.
Variable pool_vm_size : NodePool → string.
Variable pool_count : NodePool → Z.
Variable vm_size_name : VmSize → string.
Variable _generate_nodepool_name : string → string.

(** [_get_node_size_to_info]: a dictionary filled in the order of the
    listing. *)
Definition _get_node_size_to_info (nodepools : list NodePool)
    : gmap string NodePool :=
  foldl (λ node_size_to_count nodepool,
           <[pool_vm_size nodepool := nodepool]> node_size_to_count)
        ∅ nodepools.

(** [_get_node_size_to_spec]. *)
Definition _get_node_size_to_spec (specs : list VmSize) : gmap string VmSize :=
  foldl (λ node_size_to_spec spec,
           <[vm_size_name spec := spec]> node_size_to_spec)
        ∅ specs.

(** [scale_node], with the cluster details and the two listings it asks
    [AzureController] for. *)
Definition scale_node (cluster_id resource_group : string)
    (nodepools : list NodePool) (specs : list VmSize)
    (replicas : Z) (node_size : string) : Scaled :=
  let node_size_to_info := _get_node_size_to_info nodepools in
  let node_size_to_spec := _get_node_size_to_spec specs in
  let aks_name := (cluster_id +:+ "-aks")%string in
  match node_size_to_spec !! node_size with
  | None => BadRequestError
  | Some _ =>
      match node_size_to_info !! node_size with
      | None =>
          Called [add_nodepool resource_group aks_name
                    (_generate_nodepool_name node_size) replicas node_size]
      | Some nodepool =>
          if decide (pool_count nodepool ≠ replicas) then
            Called [scale_nodepool resource_group aks_name
                      (pool_name nodepool) replicas]
          else Called []
      end
  end.

End Nodes.

Section Jobs.
(** The values of a deployment dictionary, with the strings and the
    dictionaries among them. *)
Context {Json : Type}.
Variable json_str : string → Json.
Variable json_dict : gmap string Json → Json.

(** [_build_job_details]: works on a deep copy of [schedule_details]. *)
Definition _build_job_details (schedule_details : gmap string Json)
    (job_name : string) : result (gmap string Json) :=
  match schedule_details !! "name"%string with
  | None => Raise (KeyError "name")
  | Some schedule_name =>
      let job_details :=
        <["tags"%string := json_dict {["schedule"%string := schedule_name]}]>
          (<["name"%string := json_str job_name]> schedule_details) in
      match job_details !! "job_names"%string with
      | None => Raise (KeyError "job_names")
      | Some _ => Ok (delete "job_names"%string job_details)
      end
  end.

End Jobs.
End AksExecutor.

(** ** Concrete collaborators

    Small instances of the two interfaces, used to run the definitions. *)

Module Fixtures.
Import PolicyManager Actor.

(** Experience sets and memories are lists of records, [put] appends, and
    [update] keeps the memory and counts the updates. *)
Definition replay : Collaborators := {|
  ExperienceSet := list nat;
  exp_size := length;
  ExperienceMemory := list nat;
  mem_size := λ memory, Z.of_nat (length memory);
  mem_put := λ memory exp, memory ++ exp;
  PolicyState := nat;
  policy_update := λ memory state, (memory, S state)
|}.

Definition empty_memory : ExperienceMemory (Collaborators := replay) := @nil nat.
(** A policy with an experience memory and [update]. *)
Definition trainable : Policy (H := replay) :=
  mkPolicy (Some empty_memory) true 0%nat.
(** A policy with an experience memory but without [update]. *)
Definition recorder : Policy (H := replay) :=
  mkPolicy (Some empty_memory) false 0%nat.

Definition no_manager : LocalPolicyManager (H := replay) :=
  mkManager [] ∅ [] ∅ ∅ ∅.

Definition built (r : result (LocalPolicyManager (H := replay)))
    : LocalPolicyManager (H := replay) :=
  match r with Ok m => m | Raise _ => no_manager end.

(** One policy ["P"] with trigger [min_new_experiences = 10],
    [num_warmup_experiences = 20]. *)
Definition gated_manager : LocalPolicyManager (H := replay) :=
  built (__init__ [("P"%string, trainable)] (TriggerSingle (mkTrigger 10 20))).

(** A recorder ["P"] with a trigger given by name. *)
Definition recorder_manager : LocalPolicyManager (H := replay) :=
  built (__init__ [("P"%string, recorder)]
           (TriggerDict {["P"%string := mkTrigger 1 1]})).

(** A trainable ["P"] and an empty dictionary of triggers. *)
Definition eager_manager : LocalPolicyManager (H := replay) :=
  built (__init__ [("P"%string, trainable)] (TriggerDict ∅)).

(** A policy without experience memory and without [update]. *)
Definition frozen : Policy (H := replay) := @mkPolicy replay None false 0%nat.

(** A trainable ["P"] next to a frozen ["F"], default triggers. *)
Definition mixed_manager : LocalPolicyManager (H := replay) :=
  built (__init__ [("P"%string, trainable); ("F"%string, frozen)] TriggerNone).

(** A batch of [n] records. *)
Definition batch (n : nat) : ExperienceSet (Collaborators := replay) :=
  replicate n 0%nat.

(** A memory holding [n] records. *)
Definition buffer (n : nat) : ExperienceMemory (Collaborators := replay) :=
  replicate n 0%nat.

(** Environments that end an episode after three steps; the policy server
    answers every request with the next version number.  The world is the
    number of steps left in the training environment, in the evaluation
    environment, and the version of the last reply. *)
Definition countdown : Surroundings := {|
  Version := nat;
  World := nat * nat * nat;
  react := λ e w,
    let '(training, evaluation, version) := w in
    match e with
    | EnvReset TrainingEnv => (3%nat, evaluation, version)
    | EnvReset EvaluationEnv => (training, 3%nat, version)
    | EnvStep TrainingEnv => (pred (Nat.min training 3), evaluation, version)
    | EnvStep EvaluationEnv => (training, pred (Nat.min evaluation 3), version)
    | ProxySend _ _ => (training, evaluation, S version)
    | _ => w
    end;
  env_state := λ env w,
    match env with
    | TrainingEnv => negb (Nat.eqb w.1.1 0)
    | EvaluationEnv => negb (Nat.eqb w.1.2 0)
    end;
  reply_version := λ w, w.2
|}.

Definition steps_left (env : EnvRef) (w : World (Surroundings := countdown)) : nat :=
  match env with
  | TrainingEnv => Nat.min w.1.1 3
  | EvaluationEnv => Nat.min w.1.2 3
  end.

(** Three training episodes, roll-outs to the end of the environment, no
    evaluation environment of its own and no evaluation schedule. *)
Definition three_episodes : ActorArgs := mkArgs 3 (-1) None ScheduleNone.

(** Further arguments: an evaluation every second episode, an invalid step
    budget, the period zero, and no episode at all. *)
Definition every_second_episode : ActorArgs := mkArgs 3 (-1) None (ScheduleInt 2).
Definition zero_steps : ActorArgs := mkArgs 3 0 None ScheduleNone.
Definition zero_period : ActorArgs := mkArgs 3 (-1) None (ScheduleInt 0).
Definition no_episode : ActorArgs := mkArgs 0 (-1) None ScheduleNone.

Definition start_world : World (Surroundings := countdown) :=
  (0%nat, 0%nat, 0%nat).

(** [gated_manager] after a batch of 25 records: ["P"] was updated and
    waits in the updated set. *)
Definition updated_manager : LocalPolicyManager (H := replay) :=
  manager (on_experiences gated_manager [("P"%string, batch 25)]).

(** Explicit schedules with a repeated index, and with an index beyond the
    last episode. *)
Definition repeated_index : ActorArgs := mkArgs 3 (-1) None (ScheduleList [2; 2]).
Definition late_index : ActorArgs := mkArgs 3 (-1) None (ScheduleList [7]).

(** A node pool and a VM size as name, size and count, and as name. *)
Definition listed_pools : list (string * string * Z) :=
  [("pool1"%string, "Standard_D2s_v3"%string, 2);
   ("pool2"%string, "Standard_NC6"%string, 1);
   ("pool3"%string, "Standard_D2s_v3"%string, 4)].
Definition listed_sizes : list string :=
  ["Standard_D2s_v3"%string; "Standard_NC6"%string; "Standard_B2s"%string].
Definition pool_named (key : string) : string := ("pool" +:+ key)%string.

End Fixtures.

(** * Properties of the policy manager *)

Module PolicyManagerFacts.
Import PolicyManager.
Section Facts.
Context `{Collaborators}.
Implicit Types (m : LocalPolicyManager) (policy_id : string).

Lemma shape_set_policy m policy_id policy policy' :
  policy_dict m !! policy_id = Some policy →
  policy_shape policy' = policy_shape policy →
  shape (set_policy policy_id policy' m) = shape m.
Proof.
  intros Hlook Hshape. unfold shape; simpl.
  rewrite fmap_insert, Hshape. apply insert_id.
  by rewrite lookup_fmap, Hlook.
Qed.

Lemma dom_shape m : dom (shape m) = dom (policy_dict m).
Proof. unfold shape. apply dom_fmap_L. Qed.

Lemma shape_lookup m policy_id policy :
  policy_dict m !! policy_id = Some policy →
  shape m !! policy_id = Some (policy_shape policy).
Proof. intros Hl. unfold shape. by rewrite lookup_fmap, Hl. Qed.

(** **** The storing loop *)

Lemma shape_store_step m policy_id policy memory memory' n :
  policy_dict m !! policy_id = Some policy →
  experience_memory policy = Some memory →
  shape (set_policy policy_id
           (mkPolicy (Some memory') (has_update policy) (policy_state policy))
           (set_counter policy_id n m)) = shape m.
Proof.
  intros Hlook Hmem.
  apply (shape_set_policy (set_counter policy_id n m) policy_id policy); [done|].
  unfold policy_shape; simpl. by rewrite Hmem.
Qed.

Lemma store_experiences_frame exp_items : ∀ m m1 status,
  store_experiences exp_items m = (m1, status) →
  shape m1 = shape m
  ∧ _names m1 = _names m
  ∧ _updatable_policy_dict m1 = _updatable_policy_dict m
  ∧ _update_trigger m1 = _update_trigger m
  ∧ _updated_policy_ids m1 = _updated_policy_ids m.
Proof.
  induction exp_items as [|[policy_id exp] rest IH]; intros m m1 status Hrun;
    simpl in Hrun.
  - by inversion Hrun.
  - destruct (policy_dict m !! policy_id) as [policy|] eqn:Hlook.
    + destruct (experience_memory policy) as [memory|] eqn:Hmem.
      * apply IH in Hrun as (Hs & ? & ? & ? & ?). repeat split; try done.
        rewrite Hs. by eapply shape_store_step.
      * by apply IH in Hrun.
    + by inversion Hrun.
Qed.

Lemma store_experiences_status exp_items : ∀ m m1 status,
  store_experiences exp_items m = (m1, status) →
  (status = None ↔ Forall (λ kv, kv.1 ∈ dom (policy_dict m)) exp_items)
  ∧ (∀ e, status = Some e →
       ∃ key, e = KeyError key ∧ key ∈ exp_items.*1 ∧ key ∉ dom (policy_dict m)).
Proof.
  induction exp_items as [|[policy_id exp] rest IH]; intros m m1 status Hrun;
    simpl in Hrun.
  - inversion Hrun; subst. split; [by split|]. by intros e [=].
  - destruct (policy_dict m !! policy_id) as [policy|] eqn:Hlook.
    + assert (Hin : policy_id ∈ dom (policy_dict m)) by (apply elem_of_dom; eauto).
      assert (Hnext : ∀ m', shape m' = shape m →
                dom (policy_dict m') = dom (policy_dict m)).
      { intros m' Hs. by rewrite <- !dom_shape, Hs. }
      destruct (experience_memory policy) as [memory|] eqn:Hmem.
      * pose proof Hrun as Hrun'. apply IH in Hrun as [Hok Herr].
        rewrite Hnext in Hok by (by eapply shape_store_step).
        rewrite Hnext in Herr by (by eapply shape_store_step).
        split.
        -- rewrite Hok, Forall_cons. simpl. tauto.
        -- intros e He. destruct (Herr e He) as (key & -> & Hk & Hnk).
           exists key. repeat split; [|done]. simpl. by right.
      * apply IH in Hrun as [Hok Herr]. split.
        -- rewrite Hok, Forall_cons. simpl. tauto.
        -- intros e He. destruct (Herr e He) as (key & -> & Hk & Hnk).
           exists key. repeat split; [|done]. simpl. by right.
    + inversion Hrun; subst. split.
      * split; [done|]. intros Hall. apply Forall_cons in Hall as [Hin _].
        simpl in Hin. apply elem_of_dom in Hin as [? Hin]. congruence.
      * intros e [= <-]. exists policy_id. repeat split; [simpl; by left|].
        by apply not_elem_of_dom.
Qed.

Lemma buffer_capable_shape m policy_id :
  buffer_capable m policy_id ↔ ∃ u, shape m !! policy_id = Some (true, u).
Proof.
  unfold buffer_capable, shape. rewrite lookup_fmap. split.
  - intros (policy & -> & Hmem). exists (has_update policy). simpl.
    unfold policy_shape. by rewrite bool_decide_eq_true_2.
  - intros [u Hs]. destruct (policy_dict m !! policy_id) as [policy|]; [|done].
    exists policy. split; [done|]. simpl in Hs. unfold policy_shape in Hs.
    injection Hs as Hs _. by apply bool_decide_eq_true_1 in Hs.
Qed.

Lemma new_exp_counter_set_counter m policy_id n q :
  new_exp_counter (set_counter policy_id n m) q
  = if decide (policy_id = q) then n else new_exp_counter m q.
Proof.
  unfold new_exp_counter; simpl. rewrite lookup_insert.
  by destruct (decide (policy_id = q)).
Qed.

Lemma store_experiences_counter exp_items : ∀ m m1 status q,
  store_experiences exp_items m = (m1, status) →
  new_exp_counter m q ≤ new_exp_counter m1 q
  ∧ (status = None → buffer_capable m q →
       new_exp_counter m1 q = new_exp_counter m q + delivered exp_items q)
  ∧ (¬ buffer_capable m q → new_exp_counter m1 q = new_exp_counter m q).
Proof.
  induction exp_items as [|[policy_id exp] rest IH]; intros m m1 status q Hrun;
    simpl in Hrun.
  - inversion Hrun; subst. simpl. repeat split; intros; lia.
  - destruct (policy_dict m !! policy_id) as [policy|] eqn:Hlook.
    + destruct (experience_memory policy) as [memory|] eqn:Hmem.
      * apply (IH _ _ _ q) in Hrun as (Hle & Hyes & Hno).
        assert (Hcap : ∀ k, buffer_capable
                  (set_policy policy_id
                     (mkPolicy (Some (mem_put memory exp)) (has_update policy)
                        (policy_state policy))
                     (set_counter policy_id
                        (new_exp_counter m policy_id + Z.of_nat (exp_size exp)) m)) k
                  ↔ buffer_capable m k).
        { intros k. rewrite !buffer_capable_shape.
          by erewrite shape_store_step. }
        rewrite Hcap in Hyes, Hno.
        change (new_exp_counter (set_policy ?a ?b ?c) q)
          with (new_exp_counter c q) in Hle, Hyes, Hno.
        rewrite new_exp_counter_set_counter in Hle, Hyes, Hno.
        simpl. destruct (decide (policy_id = q)) as [->|Hne].
        -- repeat split; [lia| |].
           ++ intros Hst Hc. rewrite (Hyes Hst Hc). lia.
           ++ intros Hc. exfalso. apply Hc. exists policy. by rewrite Hmem.
        -- repeat split; [lia| |done].
           intros Hst Hc. by rewrite (Hyes Hst Hc).
      * apply (IH _ _ _ q) in Hrun as (Hle & Hyes & Hno).
        simpl. destruct (decide (policy_id = q)) as [->|Hne]; [|done].
        repeat split; [done| |done].
        intros _ (policy' & Hl' & Hm'). rewrite Hlook in Hl'.
        injection Hl' as <-. rewrite Hmem in Hm'. by destruct Hm'.
    + inversion Hrun; subst. split_and!; [lia|done|done].
Qed.

(** **** The update loop *)

Lemma filter_agree {A} (P1 P2 : A → Prop)
    `{!∀ x, Decision (P1 x), !∀ x, Decision (P2 x)} (l : list A) :
  (∀ x, x ∈ l → P1 x ↔ P2 x) → filter P1 l = filter P2 l.
Proof.
  induction l as [|a l IH]; intros Hiff; [done|].
  rewrite !filter_cons.
  destruct (decide (P1 a)) as [Ha|Ha], (decide (P2 a)) as [Hb|Hb].
  - f_equal. apply IH. intros x Hx. apply Hiff. by right.
  - exfalso. apply Hb, Hiff; [by left|done].
  - exfalso. apply Ha, Hiff; [by left|done].
  - apply IH. intros x Hx. apply Hiff. by right.
Qed.

Lemma run_update_frame m policy_id policy memory :
  policy_dict m !! policy_id = Some policy →
  experience_memory policy = Some memory →
  let m' := run_update policy_id policy memory m in
  shape m' = shape m
  ∧ _names m' = _names m
  ∧ _updatable_policy_dict m' = _updatable_policy_dict m
  ∧ _update_trigger m' = _update_trigger m
  ∧ _updated_policy_ids m' = {[policy_id]} ∪ _updated_policy_ids m
  ∧ (∀ q, new_exp_counter m' q
          = if decide (policy_id = q) then 0 else new_exp_counter m q)
  ∧ (∀ q, q ≠ policy_id → policy_dict m' !! q = policy_dict m !! q).
Proof.
  intros Hlook Hmem. unfold run_update.
  destruct (policy_update memory (policy_state policy)) as [memory' state'].
  simpl. repeat split.
  - unfold shape; simpl. rewrite fmap_insert. apply insert_id.
    rewrite lookup_fmap, Hlook. simpl. unfold policy_shape. simpl.
    by rewrite Hmem.
  - intros q. unfold new_exp_counter; simpl. rewrite lookup_insert.
    by destruct (decide (policy_id = q)).
  - intros q Hq. by rewrite lookup_insert_ne.
Qed.

Lemma should_update_frame m m' q :
  policy_dict m' !! q = policy_dict m !! q →
  _update_trigger m' = _update_trigger m →
  new_exp_counter m' q = new_exp_counter m q →
  should_update m' q = should_update m q.
Proof.
  intros Hp Ht Hc. unfold should_update, update_due. by rewrite Hp, Ht, Hc.
Qed.

Lemma update_policies_spec ids : ∀ m m' updated,
  NoDup ids →
  update_policies ids m = (m', updated) →
  updated = filter (λ q, should_update m q = true) ids
  ∧ shape m' = shape m
  ∧ _names m' = _names m
  ∧ _updatable_policy_dict m' = _updatable_policy_dict m
  ∧ _update_trigger m' = _update_trigger m
  ∧ _updated_policy_ids m' = list_to_set updated ∪ _updated_policy_ids m
  ∧ (∀ q, new_exp_counter m' q
          = if decide (q ∈ updated) then 0 else new_exp_counter m q)
  ∧ (∀ q, q ∉ updated → policy_dict m' !! q = policy_dict m !! q).
Proof.
  induction ids as [|policy_id rest IH]; intros m m' updated Hnd Hrun;
    simpl in Hrun.
  - inversion Hrun; subst. repeat split; try done.
    simpl. by rewrite (left_id_L ∅ (∪)).
  - apply NoDup_cons in Hnd as [Hnotin Hnd].
    assert (Hskip : should_update m policy_id = false →
              update_policies rest m = (m', updated) →
              updated = filter (λ q, should_update m q = true) (policy_id :: rest)
              ∧ shape m' = shape m
              ∧ _names m' = _names m
              ∧ _updatable_policy_dict m' = _updatable_policy_dict m
              ∧ _update_trigger m' = _update_trigger m
              ∧ _updated_policy_ids m' = list_to_set updated ∪ _updated_policy_ids m
              ∧ (∀ q, new_exp_counter m' q
                      = if decide (q ∈ updated) then 0 else new_exp_counter m q)
              ∧ (∀ q, q ∉ updated → policy_dict m' !! q = policy_dict m !! q)).
    { intros Hno Hrest. apply IH in Hrest as (-> & ?); [|done].
      split; [|done]. rewrite filter_cons_False; [done|]. by rewrite Hno. }
    unfold should_update in Hskip.
    destruct (policy_dict m !! policy_id) as [policy|] eqn:Hlook; [|by apply Hskip].
    destruct (experience_memory policy) as [memory|] eqn:Hmem; [|by apply Hskip].
    destruct (update_due m policy_id memory) eqn:Hdue; [|by apply Hskip].
    clear Hskip.
    destruct (update_policies rest (run_update policy_id policy memory m))
      as [m2 updated2] eqn:Hrest.
    inversion Hrun; subst m2 updated; clear Hrun.
    destruct (run_update_frame m policy_id policy memory Hlook Hmem)
      as (Hs1 & Hn1 & Hu1 & Ht1 & Hset1 & Hc1 & Hp1).
    apply IH in Hrest as (Hupd & Hs & Hn & Hu & Ht & Hset & Hc & Hp); [|done].
    assert (Hfilter : updated2 = filter (λ q, should_update m q = true) rest).
    { rewrite Hupd. apply filter_agree.
      intros q Hq. assert (q ≠ policy_id) by (intros ->; done).
      rewrite (should_update_frame m (run_update policy_id policy memory m) q);
        [done|by apply Hp1|done|].
      rewrite Hc1. by destruct (decide (policy_id = q)) as [->|_]. }
    repeat split.
    + rewrite filter_cons_True.
      * by rewrite <- Hfilter.
      * unfold should_update. by rewrite Hlook, Hmem.
    + by rewrite Hs.
    + by rewrite Hn.
    + by rewrite Hu.
    + by rewrite Ht.
    + rewrite Hset, Hset1, list_to_set_cons.
      rewrite (comm_L (∪) {[policy_id]} (list_to_set updated2)).
      by rewrite (assoc_L (∪)).
    + intros q. rewrite Hc, Hc1.
      destruct (decide (q ∈ updated2)) as [Hin|Hnin].
      * rewrite decide_True; [done|]. by right.
      * destruct (decide (policy_id = q)) as [->|Hne].
        -- rewrite decide_True; [done|]. by left.
        -- rewrite decide_False; [done|]. rewrite elem_of_cons.
           intros [?|?]; congruence.
    + intros q Hq. rewrite not_elem_of_cons in Hq. destruct Hq as [Hne Hq].
      rewrite Hp by done. by apply Hp1.
Qed.

(** **** [on_experiences] as a whole *)

Lemma on_experiences_unfold m exp_by_policy :
  ∃ m1 status,
    store_experiences exp_by_policy m = (m1, status)
    ∧ match status with
      | Some e => on_experiences m exp_by_policy = mkSubmitted m1 [] (Some e)
      | None =>
          ∃ m2 updated,
            update_policies (_updatable_policy_dict m1) m1 = (m2, updated)
            ∧ on_experiences m exp_by_policy = mkSubmitted m2 updated None
      end.
Proof.
  unfold on_experiences.
  destruct (store_experiences exp_by_policy m) as [m1 [e|]].
  - by exists m1, (Some e).
  - exists m1, None. split; [done|].
    destruct (update_policies (_updatable_policy_dict m1) m1) as [m2 updated].
    by exists m2, updated.
Qed.

Lemma updatable_shape (policy : Policy) :
  updatable policy = true ↔ policy_shape policy = (true, true).
Proof.
  unfold updatable, policy_shape. rewrite andb_true_iff. split.
  - by intros [-> ->].
  - by intros [= -> ->].
Qed.

Lemma manager_ok_frame m m' :
  manager_ok m →
  shape m' = shape m →
  _updatable_policy_dict m' = _updatable_policy_dict m →
  _updated_policy_ids m' ⊆ dom (policy_dict m) →
  manager_ok m'.
Proof.
  intros (Hnd & Hiff & Hsub) Hs Hu Hset. unfold manager_ok.
  rewrite Hu, Hs. split_and!; [done|done|].
  by rewrite <- dom_shape, Hs, dom_shape.
Qed.

Lemma updatable_in_dom m q :
  manager_ok m → q ∈ _updatable_policy_dict m → q ∈ dom (policy_dict m).
Proof.
  intros (_ & Hiff & _) Hq. apply Hiff in Hq.
  rewrite <- dom_shape. apply elem_of_dom. eauto.
Qed.

Lemma on_experiences_manager_ok m exp_by_policy :
  manager_ok m → manager_ok (manager (on_experiences m exp_by_policy)).
Proof.
  intros Hok. pose proof Hok as (Hnd & Hiff & Hsub).
  destruct (on_experiences_unfold m exp_by_policy) as (m1 & status & Hstore & Hrun).
  apply store_experiences_frame in Hstore as (Hs1 & _ & Hu1 & _ & Hset1).
  assert (Hok1 : manager_ok m1).
  { apply (manager_ok_frame m); [done|done|done|by rewrite Hset1]. }
  destruct status as [e|].
  - by rewrite Hrun.
  - destruct Hrun as (m2 & updated & Hupd & ->). simpl.
    apply update_policies_spec in Hupd
      as (Hfilter & Hs2 & _ & Hu2 & _ & Hset2 & _); [|by rewrite Hu1].
    apply (manager_ok_frame m1); [done|done|done|].
    rewrite Hset2. apply union_least; [|by destruct Hok1 as (_ & _ & ?)].
    intros q Hq. apply elem_of_list_to_set in Hq. rewrite Hfilter in Hq.
    apply list_elem_of_filter in Hq as [_ Hq]. by apply updatable_in_dom.
Qed.

(** **** [get_state] *)

Lemma collect_states_spec (store : gmap string Policy) ids :
  Forall (λ q, q ∈ dom store) ids →
  ∃ d, collect_states store ids = Ok d
       ∧ dom d = list_to_set ids
       ∧ ∀ q, q ∈ ids → d !! q = policy_state <$> store !! q.
Proof.
  induction ids as [|q rest IH]; intros Hall; simpl.
  - exists ∅. split_and!; [done|set_solver|]. intros q Hq. by inversion Hq.
  - apply Forall_cons in Hall as [Hq Hall].
    apply elem_of_dom in Hq as [policy Hq]. rewrite Hq.
    destruct (IH Hall) as (d & -> & Hdom & Hval).
    exists (<[q := policy_state policy]> d). split_and!; [done| |].
    + by rewrite dom_insert_L, Hdom.
    + intros q' Hq'. destruct (decide (q = q')) as [<-|Hne].
      * by rewrite lookup_insert_eq, Hq.
      * rewrite lookup_insert_ne by done. apply Hval.
        apply elem_of_cons in Hq' as [?|?]; [congruence|done].
Qed.

Lemma collect_states_raise (store : gmap string Policy) ids e :
  collect_states store ids = Raise e →
  ∃ key, e = KeyError key ∧ key ∈ ids ∧ store !! key = None.
Proof.
  induction ids as [|q rest IH]; simpl; [done|].
  destruct (store !! q) as [policy|] eqn:Hq.
  - destruct (collect_states store rest) as [d|e']; [done|].
    intros [= <-]. destruct (IH eq_refl) as (key & -> & Hin & Hnone).
    exists key. split_and!; [done|by right|done].
  - intros [= <-]. exists q. split_and!; [done|by left|done].
Qed.

Lemma get_state_spec m :
  manager_ok m →
  ∃ d, get_state m = (Ok d, set_updated ∅ m)
       ∧ dom d = _updated_policy_ids m
       ∧ ∀ q, q ∈ _updated_policy_ids m →
              d !! q = policy_state <$> policy_dict m !! q.
Proof.
  intros (_ & _ & Hsub). unfold get_state.
  destruct (collect_states_spec (policy_dict m) (elements (_updated_policy_ids m)))
    as (d & -> & Hdom & Hval).
  - apply Forall_forall. intros q Hq. apply elem_of_elements in Hq. by apply Hsub.
  - exists d. split_and!; [done| |].
    + by rewrite Hdom, list_to_set_elements_L.
    + intros q Hq. apply Hval. by apply elem_of_elements.
Qed.

Lemma set_updated_manager_ok m ids :
  manager_ok m → ids ⊆ dom (policy_dict m) → manager_ok (set_updated ids m).
Proof. intros Hok Hsub. by apply (manager_ok_frame m). Qed.

(** **** Construction *)

Lemma init_invalid (policy_items : list (string * Policy)) update_trigger :
  __init__ policy_items update_trigger = Raise ValueError
  ↔ ∃ d, update_trigger = TriggerDict d
         ∧ ∃ key, key ∈ dom d ∧ key ∉ policy_items.*1.
Proof.
  unfold __init__.
  destruct update_trigger as [|t|d]; simpl.
  - split; [done|]. by intros (d & ? & _).
  - split; [done|]. by intros (d & ? & _).
  - destruct (bool_decide_reflect
                (¬ dom d ⊆ (list_to_set policy_items.*1 : gset string)))
      as [Hbad|Hgood].
    + split; [|done]. intros _. exists d. split; [done|].
      apply (not_set_Forall_Exists
               (λ key, key ∈ (list_to_set policy_items.*1 : gset string)))
        in Hbad as (key & Hin & Hout).
      exists key. split; [done|]. intros Hk. apply Hout.
      by apply elem_of_list_to_set.
    + split; [done|]. intros (d' & [= <-] & key & Hin & Hout).
      exfalso. apply Hgood. intros Hsub. apply Hout.
      apply (elem_of_list_to_set (C := gset string)). by apply Hsub.
Qed.

Lemma init_result (policy_items : list (string * Policy)) update_trigger :
  __init__ policy_items update_trigger = Raise ValueError
  ∨ ∃ m, __init__ policy_items update_trigger = Ok m
         ∧ _names m = policy_items.*1
         ∧ policy_dict m = list_to_map policy_items
         ∧ _new_exp_counter m = ∅
         ∧ _updated_policy_ids m = ∅
         ∧ _updatable_policy_dict m
           = (filter (λ kv, updatable kv.2 = true) policy_items).*1.
Proof.
  unfold __init__.
  destruct (match update_trigger with
            | TriggerDict d =>
                bool_decide (¬ dom d ⊆ (list_to_set policy_items.*1 : gset string))
            | _ => false
            end); [by left|right].
  eexists. by split_and!.
Qed.

Lemma init_manager_ok (policy_items : list (string * Policy)) update_trigger m :
  NoDup policy_items.*1 →
  __init__ policy_items update_trigger = Ok m →
  manager_ok m.
Proof.
  intros Hnd Hinit.
  destruct (init_result policy_items update_trigger)
    as [Hbad|(m' & Hm' & _ & Hstore & _ & Hset & Hupd)]; [congruence|].
  assert (m' = m) as -> by congruence.
  unfold manager_ok, shape. rewrite Hupd, Hstore, Hset.
  split_and!; [| |set_solver].
  - apply (sublist_NoDup _ _ Hnd), fmap_sublist, sublist_filter.
  - intros q. rewrite lookup_fmap, list_elem_of_fmap. split.
    + intros ([k policy] & -> & Hin). apply list_elem_of_filter in Hin as [Hu Hin].
      simpl in *. rewrite (elem_of_list_to_map_1 _ _ _ Hnd Hin). simpl.
      f_equal. by apply updatable_shape.
    + intros Hs. apply fmap_Some in Hs as (policy & Hl & Hs).
      exists (q, policy). split; [done|]. apply list_elem_of_filter. split.
      * simpl. by apply updatable_shape.
      * by apply elem_of_list_to_map_2.
Qed.

Lemma delivered_lookup (exp_items : list (string * ExperienceSet)) q batch :
  NoDup exp_items.*1 → (q, batch) ∈ exp_items →
  delivered exp_items q = Z.of_nat (exp_size batch).
Proof.
  induction exp_items as [|[k b] rest IH]; intros Hnd Hin; [by inversion Hin|].
  simpl in *. apply NoDup_cons in Hnd as [Hk Hnd].
  apply elem_of_cons in Hin as [[= <- <-]|Hin].
  - rewrite decide_True by done.
    assert (delivered rest q = 0) as ->; [|lia].
    clear -Hk. induction rest as [|[k' b'] rest IH]; [done|]. simpl in *.
    apply not_elem_of_cons in Hk as [Hne Hk].
    rewrite decide_False by done. by apply IH.
  - rewrite decide_False.
    + by apply IH.
    + intros ->. apply Hk. apply list_elem_of_fmap. by exists (q, batch).
Qed.

(** **** What one call does to one policy *)

Lemma on_experiences_updates m exp_by_policy m1 status q :
  manager_ok m →
  store_experiences exp_by_policy m = (m1, status) →
  q ∈ updates (on_experiences m exp_by_policy)
  ↔ status = None ∧ q ∈ _updatable_policy_dict m ∧ should_update m1 q = true.
Proof.
  intros (Hnd & _ & _) Hstore.
  destruct (on_experiences_unfold m exp_by_policy) as (m1' & status' & Hstore' & Hrun).
  rewrite Hstore in Hstore'. injection Hstore' as <- <-.
  apply store_experiences_frame in Hstore as (_ & _ & Hu1 & _ & _).
  destruct status as [e|].
  - rewrite Hrun. simpl. split; [by intros ?%elem_of_nil|by intros [? _]].
  - destruct Hrun as (m2 & updated & Hupd & ->). simpl.
    apply update_policies_spec in Hupd as (-> & _); [|by rewrite Hu1].
    rewrite list_elem_of_filter, Hu1. tauto.
Qed.

Lemma on_experiences_counter m exp_by_policy q :
  manager_ok m →
  let r := on_experiences m exp_by_policy in
  (q ∈ updates r → new_exp_counter (manager r) q = 0)
  ∧ (q ∉ updates r → new_exp_counter m q ≤ new_exp_counter (manager r) q)
  ∧ (q ∉ updates r → raised r = None → buffer_capable m q →
       new_exp_counter (manager r) q
       = new_exp_counter m q + delivered exp_by_policy q)
  ∧ (q ∉ updates r → ¬ buffer_capable m q →
       new_exp_counter (manager r) q = new_exp_counter m q).
Proof.
  intros (Hnd & _ & _); simpl.
  destruct (on_experiences_unfold m exp_by_policy) as (m1 & status & Hstore & Hrun).
  pose proof (store_experiences_counter _ _ _ _ q Hstore) as (Hle & Hyes & Hno).
  apply store_experiences_frame in Hstore as (_ & _ & Hu1 & _ & _).
  destruct status as [e|].
  - rewrite Hrun. simpl. split_and!; [by intros ?%elem_of_nil|done|done|auto].
  - destruct Hrun as (m2 & updated & Hupd & ->). simpl.
    apply update_policies_spec in Hupd as (_ & _ & _ & _ & _ & _ & Hc & _);
      [|by rewrite Hu1].
    rewrite Hc. split_and!.
    + intros Hin. by rewrite decide_True.
    + intros Hout. by rewrite decide_False.
    + intros Hout _ Hcap. rewrite decide_False by done. by apply Hyes.
    + intros Hout Hcap. rewrite decide_False by done. by apply Hno.
Qed.

(** *** The update gate *)

(** C1 (as amended).  For a policy that has both an experience memory and an
    [update] method and whose registered trigger has warm-up threshold [W]
    and new-experience threshold [M], a call of [on_experiences] calls the
    policy's [update] if and only if the batches of the call were all
    stored (no unknown policy name) and, once they are stored, the memory
    holds at least [W] records and the pending counter is at least [M]. *)
Theorem update_gate_with_trigger m exp_by_policy m1 status policy_id policy memory W M :
  manager_ok m →
  store_experiences exp_by_policy m = (m1, status) →
  policy_dict m1 !! policy_id = Some policy →
  experience_memory policy = Some memory →
  has_update policy = true →
  _update_trigger m !! policy_id = Some (mkTrigger M W) →
  policy_id ∈ updates (on_experiences m exp_by_policy)
  ↔ status = None ∧ W ≤ mem_size memory ∧ M ≤ new_exp_counter m1 policy_id.
Proof.
  intros Hok Hstore Hlook Hmem Hupd Htrig.
  rewrite (on_experiences_updates m exp_by_policy m1 status) by done.
  pose proof Hok as (_ & Hiff & _).
  pose proof (store_experiences_frame _ _ _ _ Hstore) as (Hs & _ & _ & Ht & _).
  assert (Hin : policy_id ∈ _updatable_policy_dict m).
  { apply Hiff. rewrite <- Hs, (shape_lookup _ _ _ Hlook). f_equal.
    apply updatable_shape. unfold updatable. by rewrite Hmem, Hupd. }
  unfold should_update, update_due. rewrite Hlook, Hmem, Ht, Htrig. simpl.
  rewrite andb_true_iff, !bool_decide_eq_true. tauto.
Qed.

(** C2 (as amended).  An updatable policy without an entry in
    [_update_trigger] is updated by every call of [on_experiences] that
    raises no exception, whatever its experience memory holds. *)
Theorem update_without_trigger m exp_by_policy policy_id :
  manager_ok m →
  policy_id ∈ _updatable_policy_dict m →
  _update_trigger m !! policy_id = None →
  policy_id ∈ updates (on_experiences m exp_by_policy)
  ↔ raised (on_experiences m exp_by_policy) = None.
Proof.
  intros Hok Hin Htrig.
  destruct (store_experiences exp_by_policy m) as [m1 status] eqn:Hstore.
  rewrite (on_experiences_updates m exp_by_policy m1 status) by done.
  pose proof Hok as (_ & Hiff & _).
  pose proof (store_experiences_frame _ _ _ _ Hstore) as (Hs & _ & _ & Ht & _).
  assert (Hdue : should_update m1 policy_id = true).
  { apply Hiff in Hin. rewrite <- Hs in Hin. unfold shape in Hin.
    rewrite lookup_fmap in Hin. apply fmap_Some in Hin as (policy & Hl & Hp).
    unfold should_update, update_due. rewrite Hl, Ht, Htrig.
    unfold policy_shape in Hp. injection Hp as Hp _.
    symmetry in Hp. apply bool_decide_eq_true_1 in Hp as [memory ->]. done. }
  assert (Hr : raised (on_experiences m exp_by_policy) = status).
  { unfold on_experiences. rewrite Hstore. destruct status; [done|].
    by destruct (update_policies _ m1). }
  rewrite Hr. tauto.
Qed.

(** *** The delta returned by [get_state] *)

Lemma get_state_after_submit m exp_by_policy :
  manager_ok m →
  let r := on_experiences m exp_by_policy in
  ∃ d, get_state (manager r) = (Ok d, set_updated ∅ (manager r))
       ∧ dom d = list_to_set (updates r) ∪ _updated_policy_ids m.
Proof.
  intros Hok; simpl.
  destruct (get_state_spec (manager (on_experiences m exp_by_policy)))
    as (d & Hget & Hdom & _); [by apply on_experiences_manager_ok|].
  exists d. split; [done|]. rewrite Hdom.
  destruct (on_experiences_unfold m exp_by_policy) as (m1 & status & Hstore & Hrun).
  pose proof Hok as (Hnd & _ & _).
  apply store_experiences_frame in Hstore as (_ & _ & Hu1 & _ & Hset1).
  destruct status as [e|].
  - rewrite Hrun. simpl. by rewrite Hset1, (left_id_L ∅ (∪)).
  - destruct Hrun as (m2 & updated & Hupd & ->). simpl.
    apply update_policies_spec in Hupd as (_ & _ & _ & _ & _ & -> & _);
      [|by rewrite Hu1].
    by rewrite Hset1.
Qed.

(** C4.  After [on_experiences], [get_state] returns a mapping whose keys are
    the policies updated by that call together with those updated earlier
    and not yet drained.  In particular, when the call comes right after a
    drain, the key set is exactly the set of the policies it updated. *)
Theorem get_state_keys_are_updated m exp_by_policy :
  manager_ok m →
  (let r := on_experiences m exp_by_policy in
   ∃ d, (get_state (manager r)).1 = Ok d
        ∧ dom d = list_to_set (updates r) ∪ _updated_policy_ids m)
  ∧ (let drained := (get_state m).2 in
     let r := on_experiences drained exp_by_policy in
     ∃ d, (get_state (manager r)).1 = Ok d
          ∧ dom d = list_to_set (updates r)).
Proof.
  intros Hok; simpl. split.
  { destruct (get_state_after_submit m exp_by_policy Hok) as (d & Hget & Hdom).
    exists d. by rewrite Hget. }
  destruct (get_state_spec m Hok) as (d0 & -> & _). simpl.
  destruct (get_state_after_submit (set_updated ∅ m) exp_by_policy)
    as (d & Hget & Hdom).
  { apply set_updated_manager_ok; [done|]. apply empty_subseteq. }
  exists d. rewrite Hget. split; [done|]. rewrite Hdom. simpl.
  by rewrite (right_id_L ∅ (∪)).
Qed.

(** C5.  [get_state] returns a mapping whose keys are the policies of the
    updated set and leaves that set empty, so that of two calls of
    [get_state] in a row the second one returns the empty mapping. *)
Theorem get_state_twice_is_empty m :
  manager_ok m →
  ∃ d, (get_state m).1 = Ok d
       ∧ dom d = _updated_policy_ids m
       ∧ _updated_policy_ids (get_state m).2 = ∅
       ∧ (get_state (get_state m).2).1 = Ok ∅.
Proof.
  intros Hok. destruct (get_state_spec m Hok) as (d & Hget & Hdom & _).
  exists d. rewrite Hget. simpl. split_and!; [done|done|done|].
  unfold get_state. simpl. by rewrite elements_empty.
Qed.

(** *** Construction *)

(** C7.  With a dictionary of triggers, construction raises [ValueError] if
    and only if some key of the dictionary is not the name of a policy; it
    then returns no manager. *)
Theorem init_rejects_unknown_trigger_keys
    (policy_items : list (string * Policy)) (d : gmap string PolicyUpdateTrigger) :
  (__init__ policy_items (TriggerDict d) = Raise ValueError
   ↔ ∃ key, key ∈ dom d ∧ key ∉ policy_items.*1)
  ∧ (__init__ policy_items (TriggerDict d) ≠ Raise ValueError
     → ∃ m, __init__ policy_items (TriggerDict d) = Ok m
            ∧ _update_trigger m = d).
Proof.
  split.
  - rewrite init_invalid. split.
    + by intros (d' & [= <-] & Hkey).
    + intros Hkey. by exists d.
  - intros Hgood. unfold __init__ in *.
    destruct (bool_decide _); [done|]. by eexists.
Qed.

(** *** The pending-experience counter *)

(** C8.  One call of [on_experiences] leaves the counter of a policy at zero
    when the policy was updated; otherwise the counter does not decrease,
    and, when the call returns, it has grown by exactly the record count
    delivered to a policy with an experience memory and has not moved for
    any other policy.  Two calls in a row that deliver batches [b1] and [b2]
    to a policy and do not update it add both sizes to the counter, so that
    a counter starting at zero ends at their sum. *)
Theorem pending_counter_accumulates m :
  manager_ok m →
  (∀ exp_by_policy q,
     let r := on_experiences m exp_by_policy in
     (q ∈ updates r → new_exp_counter (manager r) q = 0)
     ∧ (q ∉ updates r → new_exp_counter m q ≤ new_exp_counter (manager r) q)
     ∧ (q ∉ updates r → raised r = None → buffer_capable m q →
          new_exp_counter (manager r) q
          = new_exp_counter m q + delivered exp_by_policy q)
     ∧ (q ∉ updates r → ¬ buffer_capable m q →
          new_exp_counter (manager r) q = new_exp_counter m q))
  ∧ (∀ exps1 exps2 q b1 b2,
       let r1 := on_experiences m exps1 in
       let r2 := on_experiences (manager r1) exps2 in
       NoDup exps1.*1 → NoDup exps2.*1 →
       (q, b1) ∈ exps1 → (q, b2) ∈ exps2 →
       buffer_capable m q →
       raised r1 = None → raised r2 = None →
       q ∉ updates r1 → q ∉ updates r2 →
       new_exp_counter (manager r2) q
       = new_exp_counter m q + Z.of_nat (exp_size b1) + Z.of_nat (exp_size b2)
       ∧ (new_exp_counter m q = 0 →
          new_exp_counter (manager r2) q
          = Z.of_nat (exp_size b1) + Z.of_nat (exp_size b2))).
Proof.
  intros Hok. split.
  { intros exp_by_policy q. by apply on_experiences_counter. }
  intros exps1 exps2 q b1 b2; simpl.
  intros Hnd1 Hnd2 Hin1 Hin2 Hcap Hr1 Hr2 Hu1 Hu2.
  pose proof (on_experiences_counter m exps1 q Hok) as (_ & _ & Hadd & _).
  simpl in Hadd.
  rewrite (delivered_lookup exps1 q b1) in Hadd by done.
  assert (Hok1 : manager_ok (manager (on_experiences m exps1)))
    by by apply on_experiences_manager_ok.
  pose proof (on_experiences_counter _ exps2 q Hok1) as (_ & _ & Hadd2 & _).
  simpl in Hadd2.
  rewrite (delivered_lookup exps2 q b2) in Hadd2 by done.
  assert (Hcap1 : buffer_capable (manager (on_experiences m exps1)) q).
  { apply buffer_capable_shape. apply buffer_capable_shape in Hcap.
    destruct (on_experiences_unfold m exps1) as (m1 & status & Hstore & Hrun).
    pose proof Hok as (Hnd & _ & _).
    apply store_experiences_frame in Hstore as (Hs1 & _ & Hupd1 & _ & _).
    destruct status as [e|].
    - rewrite Hrun. simpl. by rewrite Hs1.
    - destruct Hrun as (m2 & updated & Hupd & ->). simpl.
      apply update_policies_spec in Hupd as (_ & Hs2 & _); [|by rewrite Hupd1].
      by rewrite Hs2, Hs1. }
  rewrite Hadd2 by done. rewrite Hadd by done. split; [done|]. lia.
Qed.

(** *** Unknown policy names *)

(** C10.  A call of [on_experiences] whose mapping has a key that is not the
    name of a managed policy raises [KeyError] for such a key, and updates
    no policy. *)
Theorem unknown_policy_raises_key_error m exp_by_policy :
  (∃ key, key ∈ exp_by_policy.*1 ∧ key ∉ dom (policy_dict m)) →
  ∃ key, raised (on_experiences m exp_by_policy) = Some (KeyError key)
         ∧ key ∈ exp_by_policy.*1
         ∧ (key ∉ dom (policy_dict m))
         ∧ updates (on_experiences m exp_by_policy) = [].
Proof.
  intros (key & Hin & Hout).
  destruct (on_experiences_unfold m exp_by_policy) as (m1 & status & Hstore & Hrun).
  apply store_experiences_status in Hstore as [Hnone Hsome].
  destruct status as [e|].
  - destruct (Hsome e eq_refl) as (key' & -> & Hin' & Hout').
    exists key'. rewrite Hrun. by split_and!.
  - exfalso. destruct Hnone as [Hall _]. specialize (Hall eq_refl).
    apply list_elem_of_fmap in Hin as ([k b] & -> & Hin).
    rewrite Forall_forall in Hall. by apply Hall in Hin.
Qed.

End Facts.
End PolicyManagerFacts.

(** * Properties of the actor *)

Module ActorFacts.
Import Actor.
Section Facts.
Context `{Surroundings}.

(** **** Confinement through the monad *)

Lemma confined_ret {A} P E (a : A) : confined P E (ret a).
Proof. intros w. simpl. split; [constructor|done]. Qed.

Lemma confined_observe {A} P E (f : World → A) : confined P E (observe f).
Proof. intros w. simpl. split; [constructor|done]. Qed.

Lemma confined_out_of_fuel {A} P E : confined P E (out_of_fuel (A := A)).
Proof. intros w. simpl. split; [constructor|done]. Qed.

Lemma confined_raise {A} P (E : exn → Prop) e : E e → confined P E (raise (A := A) e).
Proof. intros He w. simpl. split; [constructor|]. by intros e' [= <-]. Qed.

Lemma confined_call (P : Event Version → Prop) E e : P e → confined P E (call e).
Proof. intros He w. simpl. split; [by repeat constructor|done]. Qed.

Lemma confined_bind {A B} P E (c : M A) (k : A → M B) :
  confined P E c → (∀ a, confined P E (k a)) → confined P E (bind c k).
Proof.
  intros Hc Hk w. unfold bind. destruct (Hc w) as [Ht He].
  destruct (c w) as [[t1 w1] [a|e|]]; simpl in *;
    [|split; [done|intros e' [= <-]; by apply He]|by split].
  destruct (Hk a w1) as [Ht2 He2].
  destruct (k a w1) as [[t2 w2] o2]; simpl in *.
  split; [by apply Forall_app|done].
Qed.

Lemma confined_weaken {A} (P Q : Event Version → Prop) (E F : exn → Prop) (c : M A) :
  (∀ e, P e → Q e) → (∀ e, E e → F e) → confined P E c → confined Q F c.
Proof.
  intros HPQ HEF Hc w. destruct (Hc w) as [Ht He]. split.
  - eapply Forall_impl; [exact Ht|exact HPQ].
  - intros e Hr. by apply HEF, He.
Qed.

Ltac confine :=
  repeat first
    [ apply confined_ret
    | apply confined_observe
    | apply confined_out_of_fuel
    | apply confined_call; by repeat split
    | apply confined_bind; [|intros ?] ].

Lemma rollout_confined fuel : ∀ steps_to_go,
  confined inner_call (λ _, False) (rollout fuel steps_to_go).
Proof.
  induction fuel as [|fuel IH]; intros steps_to_go; simpl; [confine|].
  confine. destruct (_ && _); confine. apply IH.
Qed.

Lemma evaluate_confined fuel eval_env :
  confined inner_call (λ _, False) (evaluate fuel eval_env).
Proof.
  induction fuel as [|fuel IH]; simpl; [confine|].
  confine. destruct a; confine. apply IH.
Qed.

Lemma segments_confined n fuel num_steps : ∀ policy_version,
  confined inner_call (λ _, False) (segments n fuel num_steps policy_version).
Proof.
  induction n as [|n IH]; intros policy_version; simpl; [confine|].
  confine. destruct a; confine; [apply rollout_confined|apply IH].
Qed.

Lemma episodes_confined eps fuel num_steps eval_env schedule :
  ∀ eval_point_index policy_version,
  confined loop_call (λ e, e = IndexError)
    (episodes eps fuel num_steps eval_env schedule eval_point_index policy_version).
Proof.
  assert (Hinner : ∀ A (c : M A),
            confined inner_call (λ _, False) c
            → confined loop_call (λ e, e = IndexError) c).
  { intros A c. apply confined_weaken; [by intros e [? _]|done]. }
  induction eps as [|ep rest IH]; intros eval_point_index policy_version;
    simpl; [confine|].
  confine; [apply Hinner, segments_confined|].
  destruct (schedule !! eval_point_index) as [point|]; [|by apply confined_raise].
  destruct (decide (ep = point)); confine;
    [apply Hinner, evaluate_confined|apply IH|apply IH].
Qed.

(** **** The shape of a run *)

Lemma count_calls_app p (t1 t2 : list (Event Version)) :
  count_calls p (t1 ++ t2) = (count_calls p t1 + count_calls p t2)%nat.
Proof. unfold count_calls. by rewrite filter_app, length_app. Qed.

Lemma count_calls_none p (t : list (Event Version)) :
  Forall (λ e, p e = false) t → count_calls p t = 0%nat.
Proof.
  unfold count_calls. induction 1 as [|e t He _ IH]; [done|].
  rewrite filter_cons_False; [done|]. by rewrite He.
Qed.

Lemma episode_ends_app (t1 t2 : list (Event Version)) :
  episode_ends (t1 ++ t2) = (episode_ends t1 + episode_ends t2)%nat.
Proof. apply count_calls_app. Qed.

Lemma episode_ends_inner (t : list (Event Version)) :
  Forall inner_call t → episode_ends t = 0%nat.
Proof.
  intros Hall. apply count_calls_none.
  eapply Forall_impl; [exact Hall|]. by intros e [_ ?].
Qed.

Lemma episodes_count eps fuel num_steps eval_env schedule :
  ∀ eval_point_index policy_version w t w' o,
  episodes eps fuel num_steps eval_env schedule eval_point_index policy_version w
    = (t, w', o) →
  o = Returned tt →
  episode_ends t = length eps.
Proof.
  induction eps as [|ep rest IH];
    intros eval_point_index policy_version w t w' o Hrun Hret; simpl in Hrun.
  { by injection Hrun as <- _ _. }
  unfold bind, call in Hrun. simpl in Hrun.
  pose proof (segments_confined fuel fuel num_steps policy_version
                (react (EnvStart TrainingEnv)
                   (react (EnvReset TrainingEnv) (react AgentExplore w))))
    as [Hseg _].
  destruct (segments fuel fuel num_steps policy_version _)
    as [[t1 w1] [v1|e1|]]; simpl in *; [|congruence|congruence].
  destruct (schedule !! eval_point_index) as [point|]; simpl in Hrun;
    [|unfold raise in Hrun; congruence].
  destruct (decide (ep = point)) as [_|_]; simpl in Hrun.
  - pose proof (evaluate_confined fuel eval_env
                  (react (EnvStart eval_env)
                     (react (EnvReset eval_env)
                        (react AgentExploit (react AgentExplorationStep w1)))))
      as [Hev _].
    destruct (evaluate fuel eval_env _) as [[t2 w2] [[]|e2|]];
      simpl in *; [|congruence|congruence].
    destruct (episodes rest _ _ _ _ _ _ w2) as [[t3 w3] o3] eqn:Hrest.
    injection Hrun as <- _ <-.
    change (episode_ends
              ([AgentExplore; EnvReset TrainingEnv; EnvStart TrainingEnv]
                 ++ t1 ++ [AgentExplorationStep; AgentExploit;
                           EnvReset eval_env; EnvStart eval_env] ++ t2 ++ t3)
            = S (length rest)).
    rewrite !episode_ends_app, (IH _ _ _ _ _ _ Hrest Hret),
      (episode_ends_inner t1), (episode_ends_inner t2) by done.
    done.
  - destruct (episodes rest _ _ _ _ _ _ _) as [[t3 w3] o3] eqn:Hrest.
    injection Hrun as <- _ <-.
    change (episode_ends
              ([AgentExplore; EnvReset TrainingEnv; EnvStart TrainingEnv]
                 ++ t1 ++ [AgentExplorationStep] ++ t3)
            = S (length rest)).
    rewrite !episode_ends_app, (IH _ _ _ _ _ _ Hrest Hret),
      (episode_ends_inner t1) by done.
    done.
Qed.

Lemma actor_invalid fuel args w :
  num_steps args = 0 ∨ num_steps args < -1 →
  actor fuel args w = ([], w, Raised ValueError).
Proof. intros Hbad. unfold actor. by rewrite decide_True. Qed.

Lemma actor_unfold fuel args w schedule :
  ¬ (num_steps args = 0 ∨ num_steps args < -1) →
  evaluation_schedule (num_episodes args) (eval_schedule args) = Ok schedule →
  let eval_env := default TrainingEnv (eval_env_wrapper args) in
  let w1 := react ProxyCreate w in
  let w2 := react (ProxySend GET_INITIAL_POLICY_STATE None) w1 in
  let w3 := react AgentSetPolicyStates w2 in
  let prefix := [ProxyCreate; ProxySend GET_INITIAL_POLICY_STATE None;
                 AgentSetPolicyStates] in
  let run := episodes (seqZ 1 (num_episodes args)) fuel (num_steps args)
               eval_env schedule 0%nat (reply_version w2) w3 in
  actor fuel args w
  = match run.2 with
    | Returned _ =>
        (prefix ++ run.1.1 ++ [ProxyISend DONE; ProxyClose],
         react ProxyClose (react (ProxyISend DONE) run.1.2), Returned tt)
    | Raised e => (prefix ++ run.1.1, run.1.2, Raised e)
    | OutOfFuel => (prefix ++ run.1.1, run.1.2, OutOfFuel)
    end.
Proof.
  intros Hok Hsched. simpl. unfold actor.
  rewrite decide_False by done. rewrite Hsched.
  unfold bind, call, lift, ret, observe. simpl.
  replace (match eval_env_wrapper args with
           | Some env => env
           | None => TrainingEnv
           end) with (default TrainingEnv (eval_env_wrapper args))
    by by destruct (eval_env_wrapper args).
  by destruct (episodes _ _ _ _ _ _ _ _) as [[t w'] [[]|e|]].
Qed.

Lemma actor_zero_period fuel args w :
  ¬ (num_steps args = 0 ∨ num_steps args < -1) →
  eval_schedule args = ScheduleInt 0 →
  actor fuel args w = ([ProxyCreate], react ProxyCreate w, Raised ZeroDivisionError).
Proof.
  intros Hok Hzero. unfold actor. rewrite decide_False by done.
  unfold evaluation_schedule. rewrite Hzero. by rewrite decide_True.
Qed.

Lemma evaluation_schedule_result num_episodes arg :
  (arg = ScheduleInt 0
   ∧ evaluation_schedule num_episodes arg = Raise ZeroDivisionError)
  ∨ (arg ≠ ScheduleInt 0
     ∧ ∃ schedule, evaluation_schedule num_episodes arg = Ok schedule).
Proof.
  unfold evaluation_schedule. destruct arg as [|period|episodes].
  - right. split; [done|]. simpl. by eexists.
  - destruct (decide (period = 0)) as [->|Hne].
    + by left.
    + right. split; [congruence|].
      by destruct (_ || _); eexists.
  - right. split; [done|]. by destruct (_ || _); eexists.
Qed.

(** **** The evaluation schedule *)

Lemma ascending_snoc (s : list Z) (n : Z) :
  StronglySorted Z.lt s → Forall (λ x, x ≤ n) s → last s ≠ Some n →
  StronglySorted Z.lt (s ++ [n]).
Proof.
  induction 1 as [|x s Hs IH Hx]; intros Hle Hlast; simpl.
  - repeat constructor.
  - apply Forall_cons in Hle as [Hxn Hle]. constructor.
    + apply IH; [done|]. intros Hl. apply Hlast.
      destruct s; [done|]. by rewrite last_cons_cons.
    + apply Forall_app. split; [done|]. constructor; [|constructor].
      destruct s as [|y s'].
      * assert (x ≠ n) by (intros ->; by apply Hlast). lia.
      * apply Forall_cons in Hx as [Hxy _]. apply Forall_cons in Hle as [Hyn _]. lia.
Qed.

Lemma ascending_NoDup (s : list Z) : StronglySorted Z.lt s → NoDup s.
Proof.
  induction 1 as [|x s Hs IH Hx]; constructor; [|done].
  intros Hin. rewrite Forall_forall in Hx. specialize (Hx x Hin). lia.
Qed.

Lemma sorted_NoDup_ascending (s : list Z) :
  StronglySorted Z.le s → NoDup s → StronglySorted Z.lt s.
Proof.
  induction 1 as [|x s Hs IH Hx]; intros Hnd; constructor.
  - apply IH. by apply NoDup_cons in Hnd as [_ ?].
  - apply NoDup_cons in Hnd as [Hnotin _].
    rewrite Forall_forall in Hx |- *. intros y Hy.
    specialize (Hx y Hy). assert (x ≠ y) by (intros ->; done). lia.
Qed.

Lemma multiples_ascending (period : Z) (len : nat) : ∀ start,
  0 < period →
  StronglySorted Z.lt ((λ i, period * i) <$> seqZ start (Z.of_nat len)).
Proof.
  induction len as [|len IH]; intros start Hpos.
  - simpl. constructor.
  - rewrite seqZ_cons by lia. simpl. constructor.
    + replace (Z.pred (Z.of_nat (S len))) with (Z.of_nat len) by lia.
      by apply IH.
    + apply Forall_forall. intros y Hy.
      apply list_elem_of_fmap in Hy as (i & -> & Hi).
      apply elem_of_seqZ in Hi. nia.
Qed.

(** The schedule always ends with the last training episode. *)
Lemma evaluation_schedule_last num_episodes arg schedule :
  evaluation_schedule num_episodes arg = Ok schedule →
  last schedule = Some num_episodes.
Proof.
  unfold evaluation_schedule.
  destruct (match arg with
            | ScheduleNone => Ok []
            | ScheduleInt period => _
            | ScheduleList episodes => _
            end) as [s|e]; [|done].
  destruct (bool_decide (s = []) || bool_decide (Some num_episodes ≠ last s))
    eqn:Hcond; intros [= <-].
  - apply last_snoc.
  - apply orb_false_iff in Hcond as [_ Hlast].
    apply bool_decide_eq_false in Hlast.
    by destruct (decide (Some num_episodes = last s)).
Qed.

(** X27.  With at least one training episode and a schedule given as [None],
    a positive period, or a list of distinct episode indices none of which
    exceeds the number of training episodes, the computed schedule is
    strictly ascending, free of duplicates, and ends with the last training
    episode. *)
Theorem evaluation_schedule_ascending num_episodes arg :
  1 ≤ num_episodes →
  schedule_input_ok num_episodes arg →
  ∃ schedule,
    evaluation_schedule num_episodes arg = Ok schedule
    ∧ StronglySorted Z.lt schedule
    ∧ NoDup schedule
    ∧ last schedule = Some num_episodes.
Proof.
  intros Hn Harg.
  assert (Hbase : ∃ s,
            match arg with
            | ScheduleNone => Ok []
            | ScheduleInt period =>
                if decide (period = 0) then Raise ZeroDivisionError
                else Ok ((λ i, period * i) <$> seqZ 1 (num_episodes `div` period))
            | ScheduleList episodes => Ok (merge_sort Z.le episodes)
            end = Ok s
            ∧ StronglySorted Z.lt s ∧ Forall (λ x, x ≤ num_episodes) s).
  { destruct arg as [|period|episodes]; simpl in Harg.
    - exists []. by repeat constructor.
    - rewrite decide_False by lia. eexists. split; [done|]. split.
      + assert (0 ≤ num_episodes `div` period) by (apply Z.div_pos; lia).
        rewrite <- (Z2Nat.id (num_episodes `div` period)) by done.
        by apply multiples_ascending.
      + apply Forall_forall. intros y Hy.
        apply list_elem_of_fmap in Hy as (i & -> & Hi).
        apply elem_of_seqZ in Hi.
        pose proof (Z.mul_div_le num_episodes period Harg). nia.
    - destruct Harg as [Hnd Hle]. eexists. split; [done|]. split.
      + apply sorted_NoDup_ascending.
        * apply StronglySorted_merge_sort; apply _.
        * by rewrite merge_sort_Permutation.
      + by rewrite merge_sort_Permutation. }
  destruct Hbase as (s & Hs & Hasc & Hle).
  unfold evaluation_schedule. rewrite Hs.
  destruct (bool_decide (s = []) || bool_decide (Some num_episodes ≠ last s))
    eqn:Hcond.
  - assert (Hfinal : StronglySorted Z.lt (s ++ [num_episodes])).
    { apply orb_true_iff in Hcond as [Hnil|Hlast].
      - apply bool_decide_eq_true in Hnil as ->. repeat constructor.
      - apply bool_decide_eq_true in Hlast. apply ascending_snoc; [done|done|].
        by intros Hl. }
    eexists. split_and!; [done|done|by apply ascending_NoDup|apply last_snoc].
  - apply orb_false_iff in Hcond as [_ Hlast].
    apply bool_decide_eq_false in Hlast.
    eexists. split_and!; [done|done|by apply ascending_NoDup|].
    by destruct (decide (Some num_episodes = last s)).
Qed.

(** *** Argument check and message protocol *)

(** C6.  [actor] raises [ValueError] if and only if [num_steps] is zero or
    below minus one, and it then has made no call at all: no proxy exists,
    no message was sent and no environment was touched. *)
Theorem actor_checks_num_steps fuel args w :
  ((actor fuel args w).2 = Raised ValueError
   ↔ num_steps args = 0 ∨ num_steps args < -1)
  ∧ ((actor fuel args w).2 = Raised ValueError → (actor fuel args w).1 = ([], w)).
Proof.
  assert (Hiff : (actor fuel args w).2 = Raised ValueError
                 ↔ num_steps args = 0 ∨ num_steps args < -1).
  { split.
    - intros Hr.
      destruct (decide (num_steps args = 0 ∨ num_steps args < -1)) as [|Hok];
        [done|exfalso].
      destruct (evaluation_schedule_result (num_episodes args) (eval_schedule args))
        as [[Hz _]|[_ [schedule Hs]]].
      + by rewrite actor_zero_period in Hr.
      + rewrite (actor_unfold fuel args w schedule Hok Hs) in Hr.
        simpl in Hr.
        match type of Hr with
        | context [episodes ?eps ?f ?n ?env ?s ?i ?v ?w'] =>
            pose proof (episodes_confined eps f n env s i v w') as [_ Hexn];
            destruct (episodes eps f n env s i v w') as [[t w''] [[]|e|]]
        end; simpl in *; [done| |done].
        injection Hr as ->. by specialize (Hexn _ eq_refl).
    - intros Hbad. by rewrite actor_invalid. }
  split; [done|]. intros Hr. apply Hiff in Hr. by rewrite actor_invalid.
Qed.

(** The shape of a run that passes the argument checks: how it starts, and
    how it closes when it returns. *)
Lemma actor_protocol_shape fuel args w :
  ¬ (num_steps args = 0 ∨ num_steps args < -1) →
  eval_schedule args ≠ ScheduleInt 0 →
  let t := (actor fuel args w).1.1 in
  (∃ rest,
     t = ProxyCreate :: ProxySend GET_INITIAL_POLICY_STATE None
           :: AgentSetPolicyStates :: rest)
  ∧ count_calls is_initial_request t = 1%nat
  ∧ (∀ pre e post,
       t = pre ++ e :: post → is_env_call e = true →
       count_calls is_initial_request pre = 1%nat)
  ∧ ((actor fuel args w).2 = Returned tt →
     (∃ mid, t = mid ++ [ProxyISend DONE; ProxyClose])
     ∧ count_calls is_done_message t = 1%nat
     ∧ episode_ends t = Z.to_nat (num_episodes args)).
Proof.
  intros Hok Hperiod. simpl.
  destruct (evaluation_schedule_result (num_episodes args) (eval_schedule args))
    as [[Hz _]|[_ [schedule Hs]]]; [done|].
  rewrite (actor_unfold fuel args w schedule Hok Hs). simpl.
  match goal with
  | |- context [episodes ?eps ?f ?n ?env ?s ?i ?v ?w'] =>
      pose proof (episodes_confined eps f n env s i v w') as [Hloop _];
      pose proof (episodes_count eps f n env s i v w') as Hcount;
      destruct (episodes eps f n env s i v w') as [[t w''] o]
  end.
  simpl in *.
  assert (Hinit : Forall (λ e, is_initial_request e = false) t).
  { eapply Forall_impl; [exact Hloop|]. by intros e [? _]. }
  assert (Hdone : Forall (λ e, is_done_message e = false) t).
  { eapply Forall_impl; [exact Hloop|]. by intros e [_ ?]. }
  set (prefix := [ProxyCreate; ProxySend GET_INITIAL_POLICY_STATE None;
                  AgentSetPolicyStates] : list (Event Version)).
  assert (Hshape : ∀ tail : list (Event Version),
            Forall (λ e, is_initial_request e = false) tail →
            count_calls is_initial_request (prefix ++ tail) = 1%nat
            ∧ ∀ pre e post,
                prefix ++ tail = pre ++ e :: post → is_env_call e = true →
                count_calls is_initial_request pre = 1%nat).
  { intros tail Htail. split.
    - by rewrite count_calls_app, (count_calls_none _ tail).
    - intros pre e post Heq Henv.
      destruct pre as [|x1 [|x2 [|x3 pre']]]; simpl in Heq;
        injection Heq as ? Heq; subst; try discriminate.
      apply Forall_app in Htail as [Hpre _].
      change (count_calls is_initial_request (prefix ++ pre') = 1%nat).
      by rewrite count_calls_app, (count_calls_none _ pre'). }
  destruct o as [[]|e|]; simpl.
  - destruct (Hshape (t ++ [ProxyISend DONE; ProxyClose])) as [Hone Hbefore].
    { apply Forall_app. split; [done|]. by repeat constructor. }
    split_and!; [by eexists|exact Hone|exact Hbefore|].
    intros _. split_and!.
    + by exists (prefix ++ t).
    + change (count_calls is_done_message
                (prefix ++ t ++ [ProxyISend DONE; ProxyClose]) = 1%nat).
      by rewrite !count_calls_app, (count_calls_none _ t).
    + change (episode_ends (prefix ++ t ++ [ProxyISend DONE; ProxyClose])
              = Z.to_nat (num_episodes args)).
      rewrite !episode_ends_app, (Hcount _ _ _ eq_refl eq_refl), length_seqZ.
      change (episode_ends prefix) with 0%nat.
      change (episode_ends [ProxyISend DONE; ProxyClose]) with 0%nat. lia.
  - destruct (Hshape t Hinit) as [Hone Hbefore].
    split_and!; [by eexists|exact Hone|exact Hbefore|done].
  - destruct (Hshape t Hinit) as [Hone Hbefore].
    split_and!; [by eexists|exact Hone|exact Hbefore|done].
Qed.

End Facts.

(** *** Runs that return

    When every episode of every environment ends after at most [bound]
    steps, a run with more fuel than [bound] returns: no loop is cut short
    and the index into the evaluation schedule stays in range. *)
Section Termination.
Context `{Surroundings}.
Variable budget : EnvRef → World → nat.
Variable bound : nat.
Hypothesis budget_bound : ∀ env w, (budget env w ≤ bound)%nat.
Hypothesis state_budget : ∀ env w, env_state env w = true → (0 < budget env w)%nat.
Hypothesis step_budget : ∀ env w,
  (0 < budget env w)%nat → (budget env (react (EnvStep env) w) < budget env w)%nat.
Hypothesis quiet_budget : ∀ env e w,
  is_quiet e = true → budget env (react e w) = budget env w.

Lemma rollout_returns fuel : ∀ steps_to_go w,
  (budget TrainingEnv w < fuel)%nat →
  ∃ t w', rollout fuel steps_to_go w = (t, w', Returned tt)
          ∧ (budget TrainingEnv w' ≤ budget TrainingEnv w)%nat
          ∧ (env_state TrainingEnv w = true → steps_to_go ≠ 0 →
             (budget TrainingEnv w' < budget TrainingEnv w)%nat).
Proof.
  induction fuel as [|fuel IH]; intros steps_to_go w Hfuel; [lia|].
  simpl. unfold bind, observe, call. simpl.
  destruct (env_state TrainingEnv w) eqn:Hstate; simpl.
  - destruct (steps_to_go =? 0) eqn:Hsteps; simpl.
    + eexists _, _. split_and!; [done|done|]. intros _ Hne.
      apply Z.eqb_eq in Hsteps. done.
    + pose proof (state_budget _ _ Hstate) as Hpos.
      pose proof (quiet_budget TrainingEnv (AgentChooseAction TrainingEnv) w eq_refl)
        as Hq.
      pose proof (step_budget TrainingEnv (react (AgentChooseAction TrainingEnv) w))
        as Hstep.
      rewrite Hq in Hstep. specialize (Hstep Hpos).
      destruct (IH (steps_to_go - 1)
                  (react (EnvStep TrainingEnv)
                     (react (AgentChooseAction TrainingEnv) w)))
        as (t & w' & -> & Hle & _); [lia|].
      eexists _, _. split_and!; [done|lia|lia].
  - eexists _, _. split_and!; [done|done|done].
Qed.

Lemma evaluate_returns fuel eval_env : ∀ w,
  (budget eval_env w < fuel)%nat →
  ∃ t w', evaluate fuel eval_env w = (t, w', Returned tt).
Proof.
  induction fuel as [|fuel IH]; intros w Hfuel; [lia|].
  simpl. unfold bind, observe, call. simpl.
  destruct (env_state eval_env w) eqn:Hstate; simpl; [|by eexists _, _].
  pose proof (state_budget _ _ Hstate) as Hpos.
  pose proof (quiet_budget eval_env (AgentChooseAction eval_env) w eq_refl) as Hq.
  pose proof (step_budget eval_env (react (AgentChooseAction eval_env) w)) as Hstep.
  rewrite Hq in Hstep. specialize (Hstep Hpos).
  destruct (IH (react (EnvStep eval_env) (react (AgentChooseAction eval_env) w)))
    as (t & w' & ->); [lia|].
  by eexists _, _.
Qed.

Lemma segments_returns n fuel num_steps : ∀ policy_version w,
  num_steps ≠ 0 →
  (budget TrainingEnv w < n)%nat →
  (bound < fuel)%nat →
  ∃ t w' v, segments n fuel num_steps policy_version w = (t, w', Returned v).
Proof.
  induction n as [|n IH]; intros policy_version w Hsteps Hn Hfuel; [lia|].
  simpl. unfold bind at 1. unfold observe at 1. simpl.
  destruct (env_state TrainingEnv w) eqn:Hstate; simpl; [|by eexists _, _, _].
  destruct (rollout_returns fuel num_steps w) as (t1 & w1 & Hroll & _ & Hlt).
  { pose proof (budget_bound TrainingEnv w). lia. }
  specialize (Hlt Hstate Hsteps).
  unfold bind at 1. rewrite Hroll.
  unfold bind, call, observe. simpl.
  match goal with
  | |- context [segments n fuel num_steps ?v ?w'] =>
      destruct (IH v w') as (t2 & w2 & v2 & ->); [done| |done|]
  end.
  - rewrite !quiet_budget by done. lia.
  - by eexists _, _, _.
Qed.

Lemma episodes_returns eps fuel num_steps eval_env schedule last_episode :
  ∀ eval_point_index policy_version w,
  num_steps ≠ 0 →
  (bound < fuel)%nat →
  last schedule = Some last_episode →
  StronglySorted Z.lt eps →
  Forall (λ ep, ep ≤ last_episode) eps →
  (eps ≠ [] → (eval_point_index < length schedule)%nat) →
  ∃ t w', episodes eps fuel num_steps eval_env schedule
            eval_point_index policy_version w = (t, w', Returned tt).
Proof.
  induction eps as [|ep rest IH];
    intros eval_point_index policy_version w Hsteps Hfuel Hlast Hsorted Hle Hidx;
    simpl; [by eexists _, _|].
  specialize (Hidx ltac:(done)).
  apply StronglySorted_inv in Hsorted as [Hsorted Hhead].
  apply Forall_cons in Hle as [Hep Hle].
  unfold bind at 1 2 3 4. unfold call at 1 2 3. simpl.
  destruct (segments_returns fuel fuel num_steps policy_version
              (react (EnvStart TrainingEnv)
                 (react (EnvReset TrainingEnv) (react AgentExplore w))))
    as (t1 & w1 & v1 & ->); [done| |done|].
  { match goal with |- (budget ?e ?w' < _)%nat =>
      pose proof (budget_bound e w') end. lia. }
  simpl. unfold bind at 1. unfold call at 1. simpl.
  destruct (lookup_lt_is_Some_2 schedule eval_point_index Hidx) as [point Hpoint].
  rewrite Hpoint.
  destruct (decide (ep = point)) as [->|Hne].
  - unfold bind at 1 2 3 4. unfold call at 1 2 3. simpl.
    destruct (evaluate_returns fuel eval_env
                (react (EnvStart eval_env)
                   (react (EnvReset eval_env)
                      (react AgentExploit (react AgentExplorationStep w1)))))
      as (t2 & w2 & ->).
    { match goal with |- (budget ?e ?w' < _)%nat =>
        pose proof (budget_bound e w') end. lia. }
    simpl.
    destruct (IH (S eval_point_index) v1 w2) as (t3 & w3 & ->);
      [done|done|done|done|done| |by eexists _, _].
    intros Hrest.
    destruct (decide (S eval_point_index < length schedule)%nat) as [|Hend];
      [done|exfalso].
    assert (point = last_episode) as ->.
    { rewrite last_lookup in Hlast.
      replace (pred (length schedule)) with eval_point_index in Hlast by lia.
      congruence. }
    destruct rest as [|r rest']; [done|].
    apply Forall_cons in Hhead as [Hr _]. apply Forall_cons in Hle as [Hr' _]. lia.
  - destruct (IH eval_point_index v1 (react AgentExplorationStep w1))
      as (t3 & w3 & ->); [done|done|done|done|done|done|by eexists _, _].
Qed.

Lemma seqZ_ascending (start len : Z) : StronglySorted Z.lt (seqZ start len).
Proof.
  destruct (decide (0 ≤ len)) as [Hlen|Hlen].
  - rewrite <- (Z2Nat.id len) by done.
    rewrite <- (list_fmap_id (seqZ start (Z.of_nat (Z.to_nat len)))).
    erewrite list_fmap_ext; [apply (multiples_ascending 1); lia|].
    intros i x _. simpl. lia.
  - unfold seqZ. replace (Z.to_nat len) with 0%nat by lia. constructor.
Qed.

(** With enough fuel the run returns. *)
Lemma actor_returns fuel args w :
  ¬ (num_steps args = 0 ∨ num_steps args < -1) →
  eval_schedule args ≠ ScheduleInt 0 →
  (bound < fuel)%nat →
  (actor fuel args w).2 = Returned tt.
Proof.
  intros Hok Hperiod Hfuel.
  destruct (evaluation_schedule_result (num_episodes args) (eval_schedule args))
    as [[Hz _]|[_ [schedule Hs]]]; [done|].
  rewrite (actor_unfold fuel args w schedule Hok Hs). simpl.
  pose proof (evaluation_schedule_last _ _ _ Hs) as Hlast.
  match goal with
  | |- context [episodes ?eps ?f ?n ?env ?s ?i ?v ?w'] =>
      destruct (episodes_returns eps f n env s (num_episodes args) i v w')
        as (t & w'' & ->)
  end; try done.
  - lia.
  - apply seqZ_ascending.
  - apply Forall_forall. intros ep Hep. apply elem_of_seqZ in Hep. lia.
  - intros _. destruct schedule; [done|simpl; lia].
Qed.

End Termination.

Section Protocol.
Context `{Surroundings}.

(** C9.  In a run of [actor] that passes the argument checks, the calls
    start with the creation of the proxy and the request for the initial
    policy state, a blocking round trip whose reply is applied at once; the
    run makes exactly one such request, and it precedes every call on an
    environment.  When the run returns, all [num_episodes] training
    episodes were brought to their end, and the run closes with its one and
    only done message, sent with [isend], followed by [proxy.close()].  And
    the run does return, in that way, whenever the episodes of the
    environments are bounded and the fuel exceeds the bound. *)
Theorem actor_protocol fuel args w :
  ¬ (num_steps args = 0 ∨ num_steps args < -1) →
  eval_schedule args ≠ ScheduleInt 0 →
  let t := (actor fuel args w).1.1 in
  (∃ rest,
     t = ProxyCreate :: ProxySend GET_INITIAL_POLICY_STATE None
           :: AgentSetPolicyStates :: rest)
  ∧ count_calls is_initial_request t = 1%nat
  ∧ (∀ pre e post,
       t = pre ++ e :: post → is_env_call e = true →
       count_calls is_initial_request pre = 1%nat)
  ∧ ((actor fuel args w).2 = Returned tt →
     (∃ mid, t = mid ++ [ProxyISend DONE; ProxyClose])
     ∧ count_calls is_done_message t = 1%nat
     ∧ episode_ends t = Z.to_nat (num_episodes args))
  ∧ (∀ (budget : EnvRef → World → nat) (bound : nat),
       (∀ env w', (budget env w' ≤ bound)%nat) →
       (∀ env w', env_state env w' = true → (0 < budget env w')%nat) →
       (∀ env w', (0 < budget env w')%nat →
                  (budget env (react (EnvStep env) w') < budget env w')%nat) →
       (∀ env e w', is_quiet e = true → budget env (react e w') = budget env w') →
       (bound < fuel)%nat →
       (actor fuel args w).2 = Returned tt
       ∧ (∃ mid, t = mid ++ [ProxyISend DONE; ProxyClose])
       ∧ count_calls is_done_message t = 1%nat
       ∧ episode_ends t = Z.to_nat (num_episodes args)).
Proof.
  intros Hok Hperiod.
  destruct (actor_protocol_shape fuel args w Hok Hperiod)
    as (Hstart & Hone & Hbefore & Hclose).
  cbv zeta. split_and!; [done|done|done|done|].
  intros budget bound Hbound Hstate Hstep Hquiet Hfuel.
  assert (Hret : (actor fuel args w).2 = Returned tt).
  { by apply (actor_returns budget bound). }
  split; [done|]. by apply Hclose.
Qed.

End Protocol.
End ActorFacts.

(** * The properties at concrete inputs *)

Module Instances.
Import PolicyManager Actor PolicyManagerFacts ActorFacts Fixtures.

Lemma gated_manager_ok : manager_ok gated_manager.
Proof.
  apply (init_manager_ok [("P"%string, trainable)] (TriggerSingle (mkTrigger 10 20))).
  - repeat constructor. by intros ?%elem_of_nil.
  - reflexivity.
Defined.

Lemma recorder_manager_ok : manager_ok recorder_manager.
Proof.
  apply (init_manager_ok [("P"%string, recorder)]
           (TriggerDict {["P"%string := mkTrigger 1 1]})).
  - repeat constructor. by intros ?%elem_of_nil.
  - reflexivity.
Defined.

Lemma eager_manager_ok : manager_ok eager_manager.
Proof.
  apply (init_manager_ok [("P"%string, trainable)] (TriggerDict ∅)).
  - repeat constructor. by intros ?%elem_of_nil.
  - reflexivity.
Defined.

Example gated_scenario :
  let r1 := on_experiences gated_manager [("P"%string, batch 5)] in
  let r2 := on_experiences (manager r1) [("P"%string, batch 10)] in
  let r3 := on_experiences (manager r2) [("P"%string, batch 10)] in
  updates r1 = [] ∧ updates r2 = [] ∧ updates r3 = ["P"%string]
  ∧ new_exp_counter (manager r2) "P" = 15
  ∧ new_exp_counter (manager r3) "P" = 0.
Proof. vm_compute. done. Qed.

(** The gate at a trigger with thresholds 20 and 10 and a batch of 25. *)
Lemma update_gate_with_trigger_witness :
  "P"%string ∈ updates (on_experiences gated_manager [("P"%string, batch 25)])
  ↔ (None : option exn) = None
    ∧ 20 ≤ mem_size (buffer 25)
    ∧ 10 ≤ new_exp_counter
             (store_experiences [("P"%string, batch 25)] gated_manager).1 "P".
Proof.
  apply (update_gate_with_trigger gated_manager [("P"%string, batch 25)]
           (store_experiences [("P"%string, batch 25)] gated_manager).1 None
           "P" (mkPolicy (Some (buffer 25)) true 0%nat) (buffer 25) 20 10).
  - exact gated_manager_ok.
  - reflexivity.
  - reflexivity.
  - reflexivity.
  - reflexivity.
  - reflexivity.
Defined.

(** C1 as stated fails for a policy that has an experience memory and a
    registered trigger but no [update] method: both thresholds are met and
    nothing is updated. *)
Lemma update_gate_ignores_recorder :
  let r := on_experiences recorder_manager [("P"%string, batch 1)] in
  _update_trigger recorder_manager !! "P"%string = Some (mkTrigger 1 1)
  ∧ experience_memory <$> policy_dict (manager r) !! "P"%string
    = Some (Some (buffer 1))
  ∧ ¬ ("P"%string ∈ updates r
       ↔ 1 ≤ mem_size (buffer 1)
         ∧ 1 ≤ new_exp_counter (manager r) "P").
Proof.
  split_and!; [reflexivity|reflexivity|].
  intros [_ Hback].
  assert (Hin : "P"%string
                ∈ updates (on_experiences recorder_manager [("P"%string, batch 1)])).
  { apply Hback. split; vm_compute; by intros [=]. }
  vm_compute in Hin. by apply elem_of_nil in Hin.
Qed.

Lemma update_without_trigger_witness :
  "P"%string ∈ updates (on_experiences eager_manager [])
  ↔ raised (on_experiences eager_manager []) = None.
Proof.
  apply (update_without_trigger eager_manager [] "P").
  - exact eager_manager_ok.
  - apply list_elem_of_here.
  - reflexivity.
Defined.

(** C2 as stated fails: a trainable policy without a trigger is updated
    although its experience memory is empty. *)
Lemma update_without_trigger_on_empty_buffer :
  let r := on_experiences eager_manager [] in
  _update_trigger eager_manager !! "P"%string = None
  ∧ experience_memory <$> policy_dict eager_manager !! "P"%string
    = Some (Some empty_memory)
  ∧ mem_size empty_memory = 0
  ∧ updates r = ["P"%string]
  ∧ ¬ ("P"%string ∈ updates r
       ↔ mem_size empty_memory ≠ 0).
Proof.
  split_and!; [reflexivity|reflexivity|reflexivity|reflexivity|].
  intros [Hforth _]. apply Hforth; [|reflexivity].
  apply list_elem_of_here.
Qed.

Lemma get_state_keys_are_updated_witness :
  let drained := (get_state gated_manager).2 in
  let r := on_experiences drained [("P"%string, batch 25)] in
  ∃ d, (get_state (manager r)).1 = Ok d
       ∧ dom d = list_to_set (updates r).
Proof.
  apply (proj2 (get_state_keys_are_updated gated_manager
                  [("P"%string, batch 25)] gated_manager_ok)).
Defined.

Example get_state_delta :
  let r := on_experiences gated_manager [("P"%string, batch 25)] in
  updates r = ["P"%string]
  ∧ (get_state (manager r)).1 = Ok {["P"%string := 1%nat]}.
Proof. split; reflexivity. Qed.

Lemma updated_manager_ok : manager_ok updated_manager.
Proof. apply on_experiences_manager_ok. exact gated_manager_ok. Defined.

(** A manager in which ["P"] waits to be drained: the first [get_state]
    returns the state of ["P"], the second the empty mapping. *)
Lemma get_state_twice_is_empty_witness :
  _updated_policy_ids updated_manager = {["P"%string]}
  ∧ (get_state updated_manager).1 = Ok {["P"%string := 1%nat]}
  ∧ ∃ d, (get_state updated_manager).1 = Ok d
         ∧ dom d = _updated_policy_ids updated_manager
         ∧ _updated_policy_ids (get_state updated_manager).2 = ∅
         ∧ (get_state (get_state updated_manager).2).1 = Ok ∅.
Proof.
  split_and!; [reflexivity|reflexivity|].
  apply (get_state_twice_is_empty updated_manager). exact updated_manager_ok.
Defined.

(** Two submissions of 5 and 10 records to a fresh manager with thresholds
    20 and 10: no update, and the counter stands at 15. *)
Lemma pending_counter_accumulates_witness :
  let r1 := on_experiences gated_manager [("P"%string, batch 5)] in
  let r2 := on_experiences (manager r1) [("P"%string, batch 10)] in
  new_exp_counter (manager r2) "P"
  = new_exp_counter gated_manager "P"
    + Z.of_nat (exp_size (batch 5)) + Z.of_nat (exp_size (batch 10))
  ∧ (new_exp_counter gated_manager "P" = 0 →
     new_exp_counter (manager r2) "P"
     = Z.of_nat (exp_size (batch 5)) + Z.of_nat (exp_size (batch 10))).
Proof.
  apply (proj2 (pending_counter_accumulates gated_manager gated_manager_ok)
           [("P"%string, batch 5)] [("P"%string, batch 10)] "P"%string
           (batch 5) (batch 10)).
  - repeat constructor. by intros ?%elem_of_nil.
  - repeat constructor. by intros ?%elem_of_nil.
  - apply list_elem_of_here.
  - apply list_elem_of_here.
  - exists trainable. split; [reflexivity|]. by exists empty_memory.
  - reflexivity.
  - reflexivity.
  - vm_compute. by intros ?%elem_of_nil.
  - vm_compute. by intros ?%elem_of_nil.
Defined.

Lemma unknown_policy_raises_key_error_witness :
  ∃ key, raised (on_experiences gated_manager [("Q"%string, batch 1)])
           = Some (KeyError key)
         ∧ key ∈ [("Q"%string, batch 1)].*1
         ∧ (key ∉ dom (policy_dict gated_manager))
         ∧ updates (on_experiences gated_manager [("Q"%string, batch 1)]) = [].
Proof.
  apply (unknown_policy_raises_key_error gated_manager [("Q"%string, batch 1)]).
  exists "Q"%string. split.
  - apply list_elem_of_here.
  - apply not_elem_of_dom. reflexivity.
Defined.

Example periodic_schedule :
  evaluation_schedule 10 (ScheduleInt 3) = Ok [3; 6; 9; 10].
Proof. reflexivity. Qed.

Lemma evaluation_schedule_ascending_witness :
  ∃ schedule,
    evaluation_schedule 10 (ScheduleInt 3) = Ok schedule
    ∧ StronglySorted Z.lt schedule
    ∧ NoDup schedule
    ∧ last schedule = Some 10.
Proof.
  apply (evaluation_schedule_ascending 10 (ScheduleInt 3)).
  - lia.
  - simpl. lia.
Defined.

Lemma actor_protocol_witness :
  let run := actor (H := countdown) 4 three_episodes (0%nat, 0%nat, 0%nat) in
  let t := run.1.1 in
  (∃ rest,
     t = ProxyCreate :: ProxySend GET_INITIAL_POLICY_STATE None
           :: AgentSetPolicyStates :: rest)
  ∧ count_calls is_initial_request t = 1%nat
  ∧ (∀ pre e post,
       t = pre ++ e :: post → is_env_call e = true →
       count_calls is_initial_request pre = 1%nat)
  ∧ run.2 = Returned tt
  ∧ (∃ mid, t = mid ++ [ProxyISend DONE; ProxyClose])
  ∧ count_calls is_done_message t = 1%nat
  ∧ episode_ends t = Z.to_nat (num_episodes three_episodes).
Proof.
  destruct (actor_protocol (H := countdown) 4 three_episodes
              (0%nat, 0%nat, 0%nat))
    as (Hstart & Hone & Hbefore & _ & Hreturns).
  - simpl. lia.
  - done.
  - cbv zeta. split; [exact Hstart|]. split; [exact Hone|].
    split; [exact Hbefore|].
    clear Hstart Hone Hbefore.
    apply (Hreturns steps_left 3%nat); clear Hreturns.
    + intros [] [[training evaluation] version]; simpl; lia.
    + intros [] [[[|training] [|evaluation]] version]; simpl; intros Hs;
        try discriminate; lia.
    + intros [] [[training evaluation] version]; simpl; lia.
    + intros env e [[training evaluation] version] Hq.
      destruct e as [| | | |[]|[]|[]| | | | | | | |]; try done;
        by destruct env.
    + lia.
Defined.

(** C3.  For an explicit list the code sorts and appends the last episode,
    and checks nothing.  From [[2; 2]] with three training episodes it
    computes [[2; 2; 3]], which repeats an index; the run then evaluates
    after episode 2 only, for [eval_point_index] stays on the second 2, and
    the evaluation after the last episode is left out.  From [[7]] it
    computes [[7; 3]], which is not ascending, and the run makes no
    evaluation at all. *)
Theorem explicit_schedule_is_not_checked :
  evaluation_schedule 3 (ScheduleList [2; 2]) = Ok [2; 2; 3]
  ∧ ¬ NoDup [2; 2; 3]
  ∧ (let run := actor (H := countdown) 4 repeated_index start_world in
     run.2 = Returned tt
     ∧ episode_ends run.1.1 = 3%nat
     ∧ count_calls is_evaluation run.1.1 = 1%nat
     ∧ last (filter (λ e, is_episode_end e || is_evaluation e = true) run.1.1)
       = Some AgentExplorationStep)
  ∧ evaluation_schedule 3 (ScheduleList [7]) = Ok [7; 3]
  ∧ ¬ StronglySorted Z.lt [7; 3]
  ∧ (let run := actor (H := countdown) 4 late_index start_world in
     run.2 = Returned tt
     ∧ episode_ends run.1.1 = 3%nat
     ∧ count_calls is_evaluation run.1.1 = 0%nat).
Proof.
  split_and!; try reflexivity.
  - intros Hnd. apply NoDup_cons in Hnd as [Hnotin _]. apply Hnotin.
    apply list_elem_of_here.
  - cbv zeta. split_and!; reflexivity.
  - intros Hs. apply StronglySorted_inv in Hs as [_ Hall].
    apply Forall_cons in Hall as [Hlt _]. lia.
  - cbv zeta. split_and!; reflexivity.
Qed.

(** The run of the fixture returns, both by evaluation and by the
    termination lemma. *)
Example three_episodes_return :
  (actor (H := countdown) 4 three_episodes (0%nat, 0%nat, 0%nat)).2
  = Returned tt.
Proof. reflexivity. Qed.

Lemma countdown_returns fuel args w :
  ¬ (num_steps args = 0 ∨ num_steps args < -1) →
  eval_schedule args ≠ ScheduleInt 0 →
  (3 < fuel)%nat →
  (actor (H := countdown) fuel args w).2 = Returned tt.
Proof.
  apply (actor_returns (H := countdown) steps_left 3).
  - intros [] [[training evaluation] version]; simpl; lia.
  - intros [] [[[|training] [|evaluation]] version]; simpl; intros Hs;
      try discriminate; lia.
  - intros [] [[training evaluation] version]; simpl; lia.
  - intros env e [[training evaluation] version] Hq.
    destruct e as [| | | |[]|[]|[]| | | | | | | |]; try done;
      by destruct env.
Qed.

End Instances.

(** * Further properties of the policy manager *)

Module ManagerLaws.
Import PolicyManager PolicyManagerFacts.
Section Laws.
Context `{Collaborators}.
Implicit Types (m : LocalPolicyManager) (q : string).

(** **** Auxiliary facts on the two loops *)

Lemma store_experiences_app (l1 l2 : list (string * ExperienceSet)) : ∀ m,
  store_experiences (l1 ++ l2) m
  = match store_experiences l1 m with
    | (m1, None) => store_experiences l2 m1
    | (m1, Some e) => (m1, Some e)
    end.
Proof.
  induction l1 as [|[k b] l1 IH]; intros m; simpl; [done|].
  destruct (policy_dict m !! k) as [policy|]; [|done].
  destruct (experience_memory policy); apply IH.
Qed.

Lemma store_experiences_known (l : list (string * ExperienceSet)) m :
  Forall (λ kv, kv.1 ∈ dom (policy_dict m)) l →
  store_experiences l m = ((store_experiences l m).1, None).
Proof.
  intros Hall. destruct (store_experiences l m) as [m1 status] eqn:Hrun.
  apply store_experiences_status in Hrun as [[_ Hnone] _].
  simpl. by rewrite Hnone.
Qed.

Lemma update_policies_frame ids : ∀ m,
  let m' := (update_policies ids m).1 in
  shape m' = shape m
  ∧ _names m' = _names m
  ∧ _updatable_policy_dict m' = _updatable_policy_dict m
  ∧ _update_trigger m' = _update_trigger m.
Proof.
  induction ids as [|q rest IH]; intros m; simpl; [done|].
  destruct (policy_dict m !! q) as [policy|] eqn:Hlook; [|apply IH].
  destruct (experience_memory policy) as [memory|] eqn:Hmem; [|apply IH].
  destruct (update_due m q memory); [|apply IH].
  destruct (run_update_frame m q policy memory Hlook Hmem)
    as (Hs & Hn & Hu & Ht & _).
  specialize (IH (run_update q policy memory m)).
  destruct (update_policies rest (run_update q policy memory m)) as [m2 updated].
  simpl in *. destruct IH as (-> & -> & -> & ->). done.
Qed.

Lemma store_experiences_policy (l : list (string * ExperienceSet)) : ∀ m m1 status q,
  store_experiences l m = (m1, status) →
  (q ∉ l.*1 → policy_dict m1 !! q = policy_dict m !! q)
  ∧ (status = None → NoDup l.*1 →
     ∀ b policy memory,
       (q, b) ∈ l →
       policy_dict m !! q = Some policy →
       experience_memory policy = Some memory →
       policy_dict m1 !! q
       = Some (mkPolicy (Some (mem_put memory b))
                 (has_update policy) (policy_state policy))).
Proof.
  induction l as [|[k e] rest IH]; intros m m1 status q Hrun; simpl in Hrun.
  - inversion Hrun; subst. split; [done|]. intros _ _ b policy memory Hin.
    by apply elem_of_nil in Hin.
  - destruct (policy_dict m !! k) as [pk|] eqn:Hlook.
    + destruct (experience_memory pk) as [mk|] eqn:Hmem.
      * apply (IH _ _ _ q) in Hrun as [Hout Hin]. simpl in Hout, Hin. split.
        -- intros Hq. simpl in Hq. apply not_elem_of_cons in Hq as [Hne Hq].
           rewrite (Hout Hq). by rewrite lookup_insert_ne.
        -- intros Hst Hnd b policy memory Hb Hp Hm. simpl in Hnd.
           apply NoDup_cons in Hnd as [Hk Hnd].
           apply elem_of_cons in Hb as [[= -> ->]|Hb].
           ++ rewrite (Hout Hk), lookup_insert_eq.
              rewrite Hlook in Hp. injection Hp as <-.
              rewrite Hmem in Hm. by injection Hm as <-.
           ++ assert (k ≠ q).
              { intros ->. apply Hk. apply list_elem_of_fmap. by exists (q, b). }
              apply (Hin Hst Hnd b policy memory Hb); [|done].
              by rewrite lookup_insert_ne.
      * apply (IH _ _ _ q) in Hrun as [Hout Hin]. split.
        -- intros Hq. simpl in Hq. apply not_elem_of_cons in Hq as [_ Hq]. auto.
        -- intros Hst Hnd b policy memory Hb Hp Hm. simpl in Hnd.
           apply NoDup_cons in Hnd as [Hk Hnd].
           apply elem_of_cons in Hb as [[= -> ->]|Hb]; [congruence|].
           by apply (Hin Hst Hnd b policy memory Hb).
    + inversion Hrun; subst. split; [done|]. by intros [=].
Qed.

Lemma update_policies_updated_policy ids : ∀ m m' updated q policy memory,
  NoDup ids →
  update_policies ids m = (m', updated) →
  q ∈ updated →
  policy_dict m !! q = Some policy →
  experience_memory policy = Some memory →
  policy_dict m' !! q
  = Some (mkPolicy (Some (policy_update memory (policy_state policy)).1)
            (has_update policy)
            (policy_update memory (policy_state policy)).2).
Proof.
  induction ids as [|k rest IH]; intros m m' updated q policy memory Hnd Hrun Hq Hp Hm;
    simpl in Hrun.
  - inversion Hrun; subst. by apply elem_of_nil in Hq.
  - apply NoDup_cons in Hnd as [Hk Hnd].
    destruct (policy_dict m !! k) as [pk|] eqn:Hlook; [|by eapply IH].
    destruct (experience_memory pk) as [mk|] eqn:Hmem; [|by eapply IH].
    destruct (update_due m k mk) eqn:Hdue; [|by eapply IH].
    destruct (update_policies rest (run_update k pk mk m)) as [m2 updated2] eqn:Hrest.
    inversion Hrun; subst m2 updated; clear Hrun.
    destruct (run_update_frame m k pk mk Hlook Hmem) as (_ & _ & _ & _ & _ & _ & Hother).
    apply elem_of_cons in Hq as [->|Hq].
    + apply update_policies_spec in Hrest as (Hf & _ & _ & _ & _ & _ & _ & Hkeep);
        [|done].
      rewrite Hkeep.
      * rewrite Hlook in Hp. injection Hp as <-.
        rewrite Hmem in Hm. injection Hm as <-.
        unfold run_update.
        destruct (policy_update mk (policy_state pk)) as [memory' state'].
        simpl. by rewrite lookup_insert_eq.
      * rewrite Hf. intros Hin. apply list_elem_of_filter in Hin as [_ Hin]. done.
    + assert (q ≠ k).
      { intros ->. apply update_policies_spec in Hrest as (Hf & _); [|done].
        rewrite Hf in Hq. apply list_elem_of_filter in Hq as [_ Hq]. done. }
      eapply IH; [done|exact Hrest|done| |done].
      by rewrite Hother.
Qed.

Lemma managed_policies_are_fixed_trigger m exp_by_policy :
  _update_trigger (manager (on_experiences m exp_by_policy)) = _update_trigger m.
Proof.
  destruct (on_experiences_unfold m exp_by_policy) as (m1 & status & Hstore & Hrun).
  apply store_experiences_frame in Hstore as (_ & _ & _ & Ht1 & _).
  destruct status as [e|].
  - by rewrite Hrun.
  - destruct Hrun as (m2 & updated & Hupd & ->). simpl.
    pose proof (update_policies_frame (_updatable_policy_dict m1) m1) as Hframe.
    rewrite Hupd in Hframe. simpl in Hframe.
    destruct Hframe as (_ & _ & _ & Ht2). congruence.
Qed.

(** *** Construction *)

(** X1.  With [update_trigger] equal to [None] or to one trigger,
    construction never raises, and the trigger mapping holds exactly the
    policies that have both an experience memory and an [update] method,
    each with the default trigger [(1, 1)] or with the trigger given. *)
Theorem init_gives_trigger_to_updatable
    (policy_items : list (string * Policy)) (arg : UpdateTriggerArg) :
  let trigger :=
    match arg with
    | TriggerSingle t => t
    | _ => mkTrigger 1 1
    end in
  (∀ d, arg ≠ TriggerDict d) →
  ∃ m, __init__ policy_items arg = Ok m
       ∧ (∀ q, q ∈ _updatable_policy_dict m
               ↔ ∃ policy, (q, policy) ∈ policy_items
                           ∧ is_Some (experience_memory policy)
                           ∧ has_update policy = true)
       ∧ (∀ q, _update_trigger m !! q
               = if decide (q ∈ _updatable_policy_dict m)
                 then Some trigger else None).
Proof.
  intros trigger Hnodict.
  set (ids := (filter (λ kv : string * Policy, updatable kv.2 = true)
                 policy_items).*1).
  assert (Hconst : ∀ (t : PolicyUpdateTrigger) q,
            (list_to_map ((λ policy_id, (policy_id, t)) <$> ids)
               : gmap string PolicyUpdateTrigger) !! q
            = if decide (q ∈ ids) then Some t else None).
  { intros t q. destruct (decide (q ∈ ids)) as [Hin|Hout].
    - apply elem_of_list_to_map_1'.
      + intros y Hy. apply list_elem_of_fmap in Hy as (k & [= _ ->] & _). done.
      + apply list_elem_of_fmap. by exists q.
    - apply not_elem_of_list_to_map_1. rewrite <- list_fmap_compose.
      intros Hq. apply Hout. apply list_elem_of_fmap in Hq as (k & -> & Hk).
      done. }
  assert (Hids : ∀ q, q ∈ ids
                      ↔ ∃ policy, (q, policy) ∈ policy_items
                                  ∧ is_Some (experience_memory policy)
                                  ∧ has_update policy = true).
  { intros q. unfold ids. rewrite list_elem_of_fmap. split.
    - intros ([k policy] & -> & Hin). apply list_elem_of_filter in Hin as [Hu Hin].
      exists policy. simpl in *. unfold updatable in Hu.
      apply andb_true_iff in Hu as [Hm Hu].
      by apply bool_decide_eq_true_1 in Hm.
    - intros (policy & Hin & Hm & Hu). exists (q, policy). split; [done|].
      apply list_elem_of_filter. split; [|done]. simpl. unfold updatable.
      by rewrite bool_decide_eq_true_2, Hu. }
  destruct arg as [|t|d]; [| |by destruct (Hnodict d)];
    (eexists; split; [reflexivity|]; split; [exact Hids|]; simpl;
     intros q; apply Hconst).
Qed.

(** X2.  A manager that was just built has every pending counter at zero,
    and its first [get_state] returns the empty mapping. *)
Theorem fresh_manager_has_nothing_pending
    (policy_items : list (string * Policy)) (arg : UpdateTriggerArg) m :
  __init__ policy_items arg = Ok m →
  names m = policy_items.*1
  ∧ (∀ q, new_exp_counter m q = 0)
  ∧ (get_state m).1 = Ok ∅.
Proof.
  intros Hinit.
  destruct (init_result policy_items arg)
    as [Hbad|(m' & Hm' & Hn & _ & Hc & Hset & _)]; [congruence|].
  assert (m' = m) as -> by congruence.
  split_and!.
  - done.
  - intros q. unfold new_exp_counter. by rewrite Hc, lookup_empty.
  - unfold get_state. by rewrite Hset, elements_empty.
Qed.

(** *** What the two methods leave alone *)

(** X3.  Neither [on_experiences] nor [get_state] changes the list of names,
    the set of managed policies, which attributes a policy has, the
    triggers or the set of updatable policies; [get_state] also leaves the
    policies and the pending counters as they are. *)
Theorem managed_policies_are_fixed m exp_by_policy :
  let m1 := manager (on_experiences m exp_by_policy) in
  let m2 := (get_state m).2 in
  (names m1 = names m
   ∧ dom (policy_dict m1) = dom (policy_dict m)
   ∧ shape m1 = shape m
   ∧ _update_trigger m1 = _update_trigger m
   ∧ _updatable_policy_dict m1 = _updatable_policy_dict m)
  ∧ (names m2 = names m
     ∧ policy_dict m2 = policy_dict m
     ∧ _update_trigger m2 = _update_trigger m
     ∧ _updatable_policy_dict m2 = _updatable_policy_dict m
     ∧ _new_exp_counter m2 = _new_exp_counter m).
Proof.
  simpl. split.
  - assert (Hgoal : ∀ m', shape m' = shape m → _names m' = _names m →
              _update_trigger m' = _update_trigger m →
              _updatable_policy_dict m' = _updatable_policy_dict m →
              names m' = names m
              ∧ dom (policy_dict m') = dom (policy_dict m)
              ∧ shape m' = shape m
              ∧ _update_trigger m' = _update_trigger m
              ∧ _updatable_policy_dict m' = _updatable_policy_dict m).
    { intros m' Hs Hn Ht Hu. split_and!; try done.
      by rewrite <- !dom_shape, Hs. }
    destruct (on_experiences_unfold m exp_by_policy) as (m1 & status & Hstore & Hrun).
    apply store_experiences_frame in Hstore as (Hs1 & Hn1 & Hu1 & Ht1 & _).
    destruct status as [e|].
    + rewrite Hrun. simpl. by apply Hgoal.
    + destruct Hrun as (m2 & updated & Hupd & ->). simpl.
      pose proof (update_policies_frame (_updatable_policy_dict m1) m1) as Hframe.
      rewrite Hupd in Hframe. simpl in Hframe.
      destruct Hframe as (Hs2 & Hn2 & Hu2 & Ht2).
      apply Hgoal; congruence.
  - unfold get_state. by destruct (collect_states _ _).
Qed.

(** X4.  The policies updated by one call of [on_experiences] are listed in
    the order of [_updatable_policy_dict], each at most once, and every one
    of them has an experience memory and an [update] method. *)
Theorem updates_are_updatable_policies m exp_by_policy :
  manager_ok m →
  let r := on_experiences m exp_by_policy in
  updates r `sublist_of` _updatable_policy_dict m
  ∧ NoDup (updates r)
  ∧ ∀ q, q ∈ updates r →
         ∃ policy, policy_dict m !! q = Some policy
                   ∧ is_Some (experience_memory policy)
                   ∧ has_update policy = true.
Proof.
  intros Hok; simpl. pose proof Hok as (Hnd & Hiff & _).
  assert (Hsub : updates (on_experiences m exp_by_policy)
                 `sublist_of` _updatable_policy_dict m).
  { destruct (on_experiences_unfold m exp_by_policy)
      as (m1 & status & Hstore & Hrun).
    apply store_experiences_frame in Hstore as (_ & _ & Hu1 & _ & _).
    destruct status as [e|].
    - rewrite Hrun. simpl. apply sublist_nil_l.
    - destruct Hrun as (m2 & updated & Hupd & ->). simpl.
      apply update_policies_spec in Hupd as (-> & _); [|by rewrite Hu1].
      rewrite Hu1. apply sublist_filter. }
  split_and!; [done|by eapply sublist_NoDup|].
  intros q Hq. eapply elem_of_sublist in Hq; [|exact Hsub].
  apply Hiff in Hq. unfold shape in Hq. rewrite lookup_fmap in Hq.
  apply fmap_Some in Hq as (policy & Hl & Hs). exists policy.
  symmetry in Hs. apply updatable_shape in Hs. unfold updatable in Hs.
  apply andb_true_iff in Hs as [Hm Hu].
  by apply bool_decide_eq_true_1 in Hm.
Qed.

(** *** What happens to a batch *)

(** X5.  A batch filed under a managed policy that has no experience memory
    is discarded without an error: the call does what it does without that
    entry. *)
Theorem batch_for_policy_without_memory_is_discarded
    m (before after : list (string * ExperienceSet)) q exp policy :
  policy_dict m !! q = Some policy →
  experience_memory policy = None →
  on_experiences m (before ++ (q, exp) :: after)
  = on_experiences m (before ++ after).
Proof.
  intros Hlook Hmem. unfold on_experiences.
  rewrite !store_experiences_app.
  destruct (store_experiences before m) as [m1 [e|]] eqn:Hstore; [done|].
  apply store_experiences_frame in Hstore as (Hs & _).
  assert (Hat : shape m1 !! q = Some (false, has_update policy)).
  { rewrite Hs, (shape_lookup _ _ _ Hlook). unfold policy_shape.
    rewrite Hmem. by rewrite bool_decide_eq_false_2 by apply is_Some_None. }
  unfold shape in Hat. rewrite lookup_fmap in Hat.
  apply fmap_Some in Hat as (p1 & Hl1 & Hp1).
  simpl. rewrite Hl1.
  destruct (experience_memory p1) as [mem1|] eqn:Hm1; [|done].
  unfold policy_shape in Hp1. rewrite Hm1 in Hp1.
  rewrite bool_decide_eq_true_2 in Hp1 by eauto. done.
Qed.

(** X6.  When a call of [on_experiences] returns, the batch delivered to a
    policy with an experience memory has been put into that memory: the
    policy then holds the memory with the batch if it was not updated, and
    what [update] made of that memory and of its state if it was. *)
Theorem delivered_batch_is_stored m exp_by_policy q b policy memory :
  manager_ok m →
  NoDup exp_by_policy.*1 →
  (q, b) ∈ exp_by_policy →
  policy_dict m !! q = Some policy →
  experience_memory policy = Some memory →
  let r := on_experiences m exp_by_policy in
  raised r = None →
  policy_dict (manager r) !! q
  = Some (if decide (q ∈ updates r)
          then mkPolicy
                 (Some (policy_update (mem_put memory b) (policy_state policy)).1)
                 (has_update policy)
                 (policy_update (mem_put memory b) (policy_state policy)).2
          else mkPolicy (Some (mem_put memory b))
                 (has_update policy) (policy_state policy)).
Proof.
  intros Hok Hnd Hin Hlook Hmem; simpl. pose proof Hok as (Hndu & _ & _).
  destruct (on_experiences_unfold m exp_by_policy) as (m1 & status & Hstore & Hrun).
  pose proof (store_experiences_policy _ _ _ _ q Hstore) as [_ Hput].
  apply store_experiences_frame in Hstore as (_ & _ & Hu1 & _ & _).
  destruct status as [e|]; [by rewrite Hrun|].
  destruct Hrun as (m2 & updated & Hupd & ->). simpl. intros _.
  specialize (Hput eq_refl Hnd b policy memory Hin Hlook Hmem).
  assert (Hnd1 : NoDup (_updatable_policy_dict m1)) by by rewrite Hu1.
  destruct (decide (q ∈ updated)) as [Hq|Hq].
  - by rewrite (update_policies_updated_policy _ _ _ _ q _ _
                  Hnd1 Hupd Hq Hput eq_refl).
  - apply update_policies_spec in Hupd as (_ & _ & _ & _ & _ & _ & _ & Hkeep);
      [|done].
    by rewrite (Hkeep q Hq).
Qed.

(** X7.  [on_experiences] is not atomic: when a key of the mapping is not a
    managed policy, the entries in front of the first such key are stored,
    those behind it are not, [KeyError] names that key, and no policy is
    updated. *)
Theorem key_error_keeps_the_entries_in_front
    m (before after : list (string * ExperienceSet)) key exp :
  Forall (λ kv, kv.1 ∈ dom (policy_dict m)) before →
  key ∉ dom (policy_dict m) →
  on_experiences m (before ++ (key, exp) :: after)
  = mkSubmitted (store_experiences before m).1 [] (Some (KeyError key)).
Proof.
  intros Hknown Hkey. unfold on_experiences.
  rewrite store_experiences_app, (store_experiences_known before m Hknown).
  destruct (store_experiences before m) as [m1 st] eqn:Hstore. simpl.
  apply store_experiences_frame in Hstore as (Hs & _).
  assert (Hnone : policy_dict m1 !! key = None).
  { apply not_elem_of_dom. by rewrite <- dom_shape, Hs, dom_shape. }
  by rewrite Hnone.
Qed.

(** *** Several calls *)

(** X8.  The set of updated policies is kept until it is drained: after two
    calls of [on_experiences] in a row, [get_state] returns the policies
    updated by either call, together with those that were pending before. *)
Theorem updated_policies_accumulate m exps1 exps2 :
  manager_ok m →
  let r1 := on_experiences m exps1 in
  let r2 := on_experiences (manager r1) exps2 in
  ∃ d, (get_state (manager r2)).1 = Ok d
       ∧ dom d = list_to_set (updates r1) ∪ list_to_set (updates r2)
                 ∪ _updated_policy_ids m.
Proof.
  intros Hok; simpl.
  assert (Hok1 := on_experiences_manager_ok m exps1 Hok).
  destruct (get_state_after_submit _ exps2 Hok1) as (d & Hget & Hdom).
  destruct (get_state_after_submit m exps1 Hok) as (d1 & Hget1 & Hdom1).
  destruct (get_state_spec _ Hok1) as (d1' & Hget1' & Hdom1' & _).
  exists d. rewrite Hget. split; [done|].
  rewrite Hdom, <- Hdom1'.
  assert (d1' = d1) as -> by congruence.
  rewrite Hdom1.
  rewrite (comm_L (∪) (list_to_set (updates (on_experiences m exps1)))
             (list_to_set (updates (on_experiences _ exps2)))).
  by rewrite (assoc_L (∪)).
Qed.

(** X9.  [get_state] exports, for every policy of the updated set, the state
    that policy has at the time of the call. *)
Theorem get_state_exports_current_state m :
  manager_ok m →
  ∃ d, (get_state m).1 = Ok d
       ∧ ∀ q, d !! q
              = if decide (q ∈ _updated_policy_ids m)
                then policy_state <$> policy_dict m !! q
                else None.
Proof.
  intros Hok. destruct (get_state_spec m Hok) as (d & Hget & Hdom & Hval).
  exists d. rewrite Hget. split; [done|]. intros q.
  destruct (decide (q ∈ _updated_policy_ids m)) as [Hq|Hq]; [by apply Hval|].
  apply not_elem_of_dom. by rewrite Hdom.
Qed.

(** X10.  A policy whose trigger asks for at least one new record is not
    updated twice on the same data: after a call that updated it, a call
    that delivers no record to it does not update it. *)
Theorem no_second_update_without_new_records m exps1 exps2 q trigger :
  manager_ok m →
  _update_trigger m !! q = Some trigger →
  1 ≤ min_new_experiences trigger →
  let r1 := on_experiences m exps1 in
  let r2 := on_experiences (manager r1) exps2 in
  q ∈ updates r1 →
  delivered exps2 q = 0 →
  q ∉ updates r2.
Proof.
  intros Hok Htrig Hmin; simpl. intros Hq1 Hnone Hq2.
  assert (Hok1 := on_experiences_manager_ok m exps1 Hok).
  pose proof (on_experiences_counter m exps1 q Hok) as (Hzero & _).
  simpl in Hzero. specialize (Hzero Hq1).
  pose proof (managed_policies_are_fixed_trigger m exps1) as Ht1.
  set (ma := manager (on_experiences m exps1)) in *.
  destruct (store_experiences exps2 ma) as [mb status] eqn:Hstore.
  apply (on_experiences_updates ma exps2 mb status q Hok1 Hstore) in Hq2
    as (-> & _ & Hdue).
  pose proof (store_experiences_counter _ _ _ _ q Hstore) as (_ & Hyes & Hno).
  apply store_experiences_frame in Hstore as (_ & _ & _ & Ht & _).
  assert (Hc : new_exp_counter mb q = 0).
  { destruct (policy_dict ma !! q) as [pa|] eqn:Hpa;
      [destruct (experience_memory pa) as [mema|] eqn:Hma|].
    - rewrite Hyes; [lia|done|]. exists pa. by rewrite Hma.
    - rewrite Hno; [lia|]. intros (p' & Hl & Hm'). rewrite Hpa in Hl.
      injection Hl as <-. rewrite Hma in Hm'. by destruct Hm'.
    - rewrite Hno; [lia|]. intros (p' & Hl & _). by rewrite Hpa in Hl. }
  unfold should_update, update_due in Hdue.
  destruct (policy_dict mb !! q) as [policy|]; [|done].
  destruct (experience_memory policy) as [memory|]; [|done].
  rewrite Ht, Ht1, Htrig, Hc in Hdue.
  apply andb_true_iff in Hdue as [_ Hdue].
  apply bool_decide_eq_true_1 in Hdue. lia.
Qed.

End Laws.
End ManagerLaws.

(** * Further properties of the actor *)

Module ActorLaws.
Import Actor ActorFacts Calls.
Section Laws.
Context `{Surroundings}.

(** *** The evaluation schedule *)

(** X11.  The schedule cannot be computed for the period zero only: this is
    a [ZeroDivisionError].  Whenever it is computed, for whatever input,
    its last element is the number of training episodes. *)
Theorem schedule_ends_with_last_episode num_episodes arg :
  (∀ e, evaluation_schedule num_episodes arg = Raise e
        ↔ arg = ScheduleInt 0 ∧ e = ZeroDivisionError)
  ∧ (∀ schedule, evaluation_schedule num_episodes arg = Ok schedule →
                 last schedule = Some num_episodes).
Proof.
  split; [|by apply evaluation_schedule_last].
  intros e.
  destruct (evaluation_schedule_result num_episodes arg)
    as [[-> Hr]|[Hne [schedule Hs]]].
  - rewrite Hr. split; [by intros [= <-]|by intros [_ ->]].
  - rewrite Hs. split; [done|by intros [? _]].
Qed.

(** X12.  With a positive period the schedule holds exactly the multiples of
    the period up to the number of training episodes, and that number. *)
Theorem periodic_schedule_members num_episodes period :
  0 < period →
  ∃ schedule,
    evaluation_schedule num_episodes (ScheduleInt period) = Ok schedule
    ∧ ∀ x, x ∈ schedule
           ↔ x = num_episodes
             ∨ ∃ i, 1 ≤ i ∧ x = period * i ∧ x ≤ num_episodes.
Proof.
  intros Hpos.
  set (multiples := (λ i, period * i) <$> seqZ 1 (num_episodes `div` period)).
  assert (Hmult : ∀ x, x ∈ multiples
                       ↔ ∃ i, 1 ≤ i ∧ x = period * i ∧ x ≤ num_episodes).
  { intros x. unfold multiples. rewrite list_elem_of_fmap. split.
    - intros (i & -> & Hi). apply elem_of_seqZ in Hi. exists i.
      split_and!; [lia|done|].
      pose proof (Z.mul_div_le num_episodes period Hpos). nia.
    - intros (i & Hi & -> & Hle). exists i. split; [done|].
      apply elem_of_seqZ.
      assert (i ≤ num_episodes `div` period); [|lia].
      apply Z.div_le_lower_bound; lia. }
  unfold evaluation_schedule. rewrite decide_False by lia.
  fold multiples.
  destruct (bool_decide (multiples = [])
            || bool_decide (Some num_episodes ≠ last multiples)) eqn:Hcond.
  - eexists. split; [done|]. intros x. rewrite elem_of_app, Hmult.
    rewrite list_elem_of_singleton. tauto.
  - eexists. split; [done|]. intros x. rewrite Hmult.
    apply orb_false_iff in Hcond as [_ Hlast].
    apply bool_decide_eq_false in Hlast.
    assert (Hl : last multiples = Some num_episodes)
      by by destruct (decide (Some num_episodes = last multiples)).
    apply last_Some_elem_of, Hmult in Hl.
    split; [tauto|]. by intros [->|?].
Qed.

(** X13.  Without a schedule, with an empty list, with a negative period or
    with a period beyond the number of training episodes, the only
    evaluation is the one after the last training episode. *)
Theorem schedule_of_last_episode_only num_episodes arg :
  match arg with
  | ScheduleNone => True
  | ScheduleInt period =>
      1 ≤ num_episodes ∧ (period < 0 ∨ num_episodes < period)
  | ScheduleList episodes => episodes = []
  end →
  evaluation_schedule num_episodes arg = Ok [num_episodes].
Proof.
  destruct arg as [|period|episodes]; simpl.
  - done.
  - intros [Hn Hperiod]. unfold evaluation_schedule.
    rewrite decide_False by lia.
    assert (num_episodes `div` period ≤ 0) as Hdiv.
    { destruct Hperiod as [Hneg|Hbig].
      - pose proof (Z.div_mod num_episodes period ltac:(lia)) as Hdm.
        pose proof (Z.mod_neg_bound num_episodes period Hneg) as Hmod.
        nia.
      - rewrite Z.div_small by lia. lia. }
    unfold seqZ. replace (Z.to_nat (num_episodes `div` period)) with 0%nat by lia.
    done.
  - intros ->. done.
Qed.

(** *** The calls of the loops *)

Ltac confine :=
  repeat first
    [ apply confined_ret
    | apply confined_observe
    | apply confined_out_of_fuel
    | apply confined_call; done
    | apply confined_bind; [|intros ?] ].

Lemma rollout_calls fuel : ∀ steps_to_go,
  confined (λ e, in_rollout e = true) (λ _, False) (rollout fuel steps_to_go).
Proof.
  induction fuel as [|fuel IH]; intros steps_to_go; simpl; [confine|].
  confine. destruct (_ && _); confine. apply IH.
Qed.

Lemma evaluate_calls fuel eval_env :
  confined (λ e, in_evaluation eval_env e = true) (λ _, False)
    (evaluate fuel eval_env).
Proof.
  induction fuel as [|fuel IH]; simpl; [confine|].
  confine. destruct a; confine;
    try (apply confined_call; by destruct eval_env). apply IH.
Qed.

Lemma segments_calls n fuel num_steps : ∀ policy_version,
  confined (λ e, in_segment e = true) (λ _, False)
    (segments n fuel num_steps policy_version).
Proof.
  induction n as [|n IH]; intros policy_version; simpl; [confine|].
  confine. destruct a; confine; [|apply IH].
  eapply confined_weaken; [| |apply rollout_calls]; [|done].
  intros e He. unfold in_segment. by rewrite He.
Qed.

Lemma episodes_calls eps fuel num_steps eval_env schedule :
  ∀ eval_point_index policy_version,
  confined (λ e, in_episode eval_env e = true) (λ e, e = IndexError)
    (episodes eps fuel num_steps eval_env schedule eval_point_index policy_version).
Proof.
  induction eps as [|ep rest IH]; intros eval_point_index policy_version;
    simpl; [confine|].
  confine.
  - eapply confined_weaken; [| |apply segments_calls]; [|done].
    intros e He. unfold in_episode. by rewrite He.
  - destruct (schedule !! eval_point_index) as [point|]; [|by apply confined_raise].
    destruct (decide (ep = point)); confine;
      try (apply confined_call; by destruct eval_env); try apply IH.
    eapply confined_weaken; [| |apply evaluate_calls]; [|done].
    intros call Hcall. unfold in_episode. rewrite Hcall. by rewrite orb_true_r.
Qed.

(** *** One turn of each loop *)

Lemma segments_succ n fuel num_steps policy_version w :
  segments (S n) fuel num_steps policy_version w
  = if env_state TrainingEnv w then
      match rollout fuel num_steps w with
      | (t1, w1, Returned _) =>
          let w2 := react (ProxySend COLLECT_DONE (Some policy_version))
                      (react AgentGetExperiencesByPolicy
                         (react AgentStoreExperiences
                            (react (EnvGetExperiences TrainingEnv) w1))) in
          let run := segments n fuel num_steps (reply_version w2)
                       (react AgentSetPolicyStates w2) in
          (t1 ++ hand_over policy_version ++ run.1.1, run.1.2, run.2)
      | (t1, w1, Raised e) => (t1, w1, Raised e)
      | (t1, w1, OutOfFuel) => (t1, w1, OutOfFuel)
      end
    else ([], w, Returned policy_version).
Proof.
  simpl. unfold bind at 1. unfold observe at 1. simpl.
  destruct (env_state TrainingEnv w); [|done].
  unfold bind at 1.
  destruct (rollout fuel num_steps w) as [[t1 w1] [[]|e|]]; [|done|done].
  unfold bind, call, observe. simpl.
  by destruct (segments n fuel num_steps _ _) as [[t2 w3] o].
Qed.

Lemma episodes_cons ep rest fuel num_steps eval_env schedule
    eval_point_index policy_version w :
  let start := [AgentExplore; EnvReset TrainingEnv; EnvStart TrainingEnv] in
  let evaluation := [AgentExplorationStep; AgentExploit;
                     EnvReset eval_env; EnvStart eval_env] in
  episodes (ep :: rest) fuel num_steps eval_env schedule
    eval_point_index policy_version w
  = match segments fuel fuel num_steps policy_version
            (react (EnvStart TrainingEnv)
               (react (EnvReset TrainingEnv) (react AgentExplore w))) with
    | (t1, w1, Returned policy_version') =>
        match schedule !! eval_point_index with
        | None =>
            (start ++ t1 ++ [AgentExplorationStep],
             react AgentExplorationStep w1, Raised IndexError)
        | Some point =>
            if decide (ep = point) then
              match evaluate fuel eval_env
                      (react (EnvStart eval_env)
                         (react (EnvReset eval_env)
                            (react AgentExploit
                               (react AgentExplorationStep w1)))) with
              | (t2, w2, Returned _) =>
                  let run := episodes rest fuel num_steps eval_env schedule
                               (S eval_point_index) policy_version' w2 in
                  (start ++ t1 ++ evaluation ++ t2 ++ run.1.1, run.1.2, run.2)
              | (t2, w2, Raised e) =>
                  (start ++ t1 ++ evaluation ++ t2, w2, Raised e)
              | (t2, w2, OutOfFuel) =>
                  (start ++ t1 ++ evaluation ++ t2, w2, OutOfFuel)
              end
            else
              let run := episodes rest fuel num_steps eval_env schedule
                           eval_point_index policy_version'
                           (react AgentExplorationStep w1) in
              (start ++ t1 ++ [AgentExplorationStep] ++ run.1.1, run.1.2, run.2)
        end
    | (t1, w1, Raised e) => (start ++ t1, w1, Raised e)
    | (t1, w1, OutOfFuel) => (start ++ t1, w1, OutOfFuel)
    end.
Proof.
  simpl. unfold bind at 1 2 3 4. unfold call at 1 2 3. simpl.
  destruct (segments fuel fuel num_steps policy_version _)
    as [[t1 w1] [v1|e1|]]; [|done|done].
  unfold bind at 1. unfold call at 1. simpl.
  destruct (schedule !! eval_point_index) as [point|]; [|done].
  destruct (decide (ep = point)).
  - unfold bind at 1 2 3 4. unfold call at 1 2 3. simpl.
    destruct (evaluate fuel eval_env _) as [[t2 w2] [[]|e2|]]; [|done|done].
    by destruct (episodes rest _ _ _ _ _ _ _) as [[t3 w3] o3].
  - by destruct (episodes rest _ _ _ _ _ _ _) as [[t3 w3] o3].
Qed.

(** *** Exceptions *)

(** X14.  With valid [num_steps] and the evaluation period zero, [actor]
    raises [ZeroDivisionError] when the proxy has been created and before
    any message is sent or any environment is touched. *)
Theorem zero_period_raises_after_proxy_creation fuel args w :
  ¬ (num_steps args = 0 ∨ num_steps args < -1) →
  eval_schedule args = ScheduleInt 0 →
  actor fuel args w
  = ([ProxyCreate], react ProxyCreate w, Raised ZeroDivisionError).
Proof. apply actor_zero_period. Qed.

Lemma episodes_never_raise eps fuel num_steps eval_env schedule last_episode :
  ∀ eval_point_index policy_version,
  last schedule = Some last_episode →
  StronglySorted Z.lt eps →
  Forall (λ ep, ep ≤ last_episode) eps →
  (eps ≠ [] → (eval_point_index < length schedule)%nat) →
  never_raises (episodes eps fuel num_steps eval_env schedule
                  eval_point_index policy_version).
Proof.
  induction eps as [|ep rest IH];
    intros eval_point_index policy_version Hlast Hsorted Hle Hidx w e;
    [done|].
  specialize (Hidx ltac:(done)).
  apply StronglySorted_inv in Hsorted as [Hsorted Hhead].
  apply Forall_cons in Hle as [Hep Hle].
  rewrite episodes_cons.
  match goal with
  | |- context [segments ?n ?f ?s ?v ?w'] =>
      pose proof (segments_calls n f s v w') as [_ Hseg];
      destruct (segments n f s v w') as [[t1 w1] [v1|e1|]]
  end; simpl in *; [|by destruct (Hseg _ eq_refl)|done].
  destruct (lookup_lt_is_Some_2 schedule eval_point_index Hidx) as [point Hpoint].
  rewrite Hpoint.
  destruct (decide (ep = point)) as [->|Hne].
  - match goal with
    | |- context [evaluate ?f ?env ?w'] =>
        pose proof (evaluate_calls f env w') as [_ Hev];
        destruct (evaluate f env w') as [[t2 w2] [[]|e2|]]
    end; simpl in *; [|by destruct (Hev _ eq_refl)|done].
    apply IH; [done|done|done|].
    intros Hrest.
    destruct (decide (S eval_point_index < length schedule)%nat) as [|Hend];
      [done|exfalso].
    assert (point = last_episode) as ->.
    { rewrite last_lookup in Hlast.
      replace (pred (length schedule)) with eval_point_index in Hlast by lia.
      congruence. }
    destruct rest as [|r rest']; [done|].
    apply Forall_cons in Hhead as [Hr _]. apply Forall_cons in Hle as [Hr' _]. lia.
  - by apply IH.
Qed.

(** X15.  The only exceptions [actor] itself raises are the [ValueError] for
    an invalid [num_steps] and the [ZeroDivisionError] for the evaluation
    period zero; the index [eval_point_index] never leaves the schedule. *)
Theorem actor_raises_only_for_its_arguments fuel args w e :
  (actor fuel args w).2 = Raised e →
  (e = ValueError ∧ (num_steps args = 0 ∨ num_steps args < -1))
  ∨ (e = ZeroDivisionError
     ∧ ¬ (num_steps args = 0 ∨ num_steps args < -1)
     ∧ eval_schedule args = ScheduleInt 0).
Proof.
  intros Hr.
  destruct (decide (num_steps args = 0 ∨ num_steps args < -1)) as [Hbad|Hok].
  { left. rewrite actor_invalid in Hr by done. by injection Hr as <-. }
  right.
  destruct (evaluation_schedule_result (num_episodes args) (eval_schedule args))
    as [[Hz _]|[_ [schedule Hs]]].
  { rewrite actor_zero_period in Hr by done. by injection Hr as <-. }
  exfalso. rewrite (actor_unfold fuel args w schedule Hok Hs) in Hr.
  simpl in Hr.
  pose proof (evaluation_schedule_last _ _ _ Hs) as Hlast.
  match type of Hr with
  | context [episodes ?eps ?f ?n ?env ?s ?i ?v ?w'] =>
      pose proof (episodes_never_raise eps f n env s (num_episodes args) i v) as Hnever;
      destruct (episodes eps f n env s i v w') as [[t w''] [[]|e'|]] eqn:Hrun
  end; simpl in Hr; try done.
  eapply (Hnever Hlast).
  - apply seqZ_ascending.
  - apply Forall_forall. intros ep Hep. apply elem_of_seqZ in Hep. lia.
  - intros _. destruct schedule; [done|simpl; lia].
  - by rewrite Hrun.
Qed.

(** *** Episodes and evaluations *)

(** X16.  Without training episodes ([num_episodes] at most zero) a run is
    the initial round trip followed by the done message: no environment is
    touched, whatever the fuel. *)
Theorem no_episode_no_environment_call fuel args w :
  ¬ (num_steps args = 0 ∨ num_steps args < -1) →
  eval_schedule args ≠ ScheduleInt 0 →
  num_episodes args ≤ 0 →
  (actor fuel args w).1.1
  = [ProxyCreate; ProxySend GET_INITIAL_POLICY_STATE None; AgentSetPolicyStates;
     ProxyISend DONE; ProxyClose]
  ∧ (actor fuel args w).2 = Returned tt.
Proof.
  intros Hok Hperiod Hnone.
  destruct (evaluation_schedule_result (num_episodes args) (eval_schedule args))
    as [[Hz _]|[_ [schedule Hs]]]; [done|].
  rewrite (actor_unfold fuel args w schedule Hok Hs). simpl.
  unfold seqZ. replace (Z.to_nat (num_episodes args)) with 0%nat by lia.
  done.
Qed.

Lemma evaluations_none (t : list (Event Version)) (P : Event Version → Prop) :
  (∀ e, P e → is_evaluation e = false) → Forall P t →
  count_calls is_evaluation t = 0%nat.
Proof.
  intros HP Hall. apply count_calls_none.
  eapply Forall_impl; [exact Hall|exact HP].
Qed.

Lemma episodes_evaluations fuel num_steps eval_env schedule (len : nat) :
  ∀ first eval_point_index policy_version w,
  let run := episodes (seqZ first (Z.of_nat len)) fuel num_steps eval_env
               schedule eval_point_index policy_version w in
  run.2 = Returned tt →
  StronglySorted Z.lt (drop eval_point_index schedule) →
  Forall (λ x, first ≤ x < first + Z.of_nat len) (drop eval_point_index schedule) →
  count_calls is_evaluation run.1.1 = length (drop eval_point_index schedule).
Proof.
  induction len as [|len IH];
    intros first eval_point_index policy_version w; simpl.
  - intros _ _ Hrange. destruct (drop eval_point_index schedule) as [|x rest];
      [done|]. apply Forall_cons in Hrange as [Hx _]. lia.
  - rewrite seqZ_cons by lia.
    replace (Z.pred (Z.of_nat (S len))) with (Z.of_nat len) by lia.
    rewrite episodes_cons.
    match goal with
    | |- context [segments ?n ?f ?s ?v ?w'] =>
        pose proof (segments_calls n f s v w') as [Hseg _];
        destruct (segments n f s v w') as [[t1 w1] [v1|e1|]]
    end; simpl in *; [|done|done].
    assert (Ht1 : count_calls is_evaluation t1 = 0%nat).
    { eapply evaluations_none; [|exact Hseg].
      intros [] ?; try done. }
    destruct (schedule !! eval_point_index) as [point|] eqn:Hpoint; [|done].
    rewrite (drop_S _ _ _ Hpoint).
    destruct (decide (first = point)) as [<-|Hne].
    + match goal with
      | |- context [evaluate ?f ?env ?w'] =>
          pose proof (evaluate_calls f env w') as [Hev _];
          destruct (evaluate f env w') as [[t2 w2] [[]|e2|]]
      end; simpl in *; [|done|done].
      assert (Ht2 : count_calls is_evaluation t2 = 0%nat).
      { eapply evaluations_none; [|exact Hev].
        intros [] ?; try done. }
      intros Hret Hsorted Hrange.
      apply StronglySorted_inv in Hsorted as [Hsorted Hhead].
      apply Forall_cons in Hrange as [_ Hrange].
      specialize (IH (Z.succ first) (S eval_point_index) v1 w2 Hret Hsorted).
      change (count_calls is_evaluation
                ([AgentExplore; EnvReset TrainingEnv; EnvStart TrainingEnv]
                   ++ t1 ++ [AgentExplorationStep; AgentExploit;
                             EnvReset eval_env; EnvStart eval_env] ++ t2
                   ++ (episodes (seqZ (Z.succ first) (Z.of_nat len)) fuel num_steps
                         eval_env schedule (S eval_point_index) v1 w2).1.1)
              = S (length (drop (S eval_point_index) schedule))).
      rewrite !count_calls_app, Ht1, Ht2, IH.
      * done.
      * rewrite Forall_forall in Hhead, Hrange |- *. intros x Hx.
        specialize (Hhead x Hx). specialize (Hrange x Hx). lia.
    + intros Hret Hsorted Hrange.
      pose proof Hsorted as Hsorted'.
      apply StronglySorted_inv in Hsorted' as [_ Hhead].
      pose proof Hrange as Hrange'.
      apply Forall_cons in Hrange' as [Hp Hrest].
      rewrite <- (drop_S _ _ _ Hpoint) in Hsorted, Hrange |- *.
      specialize (IH (Z.succ first) eval_point_index v1
                    (react AgentExplorationStep w1) Hret Hsorted).
      change (count_calls is_evaluation
                ([AgentExplore; EnvReset TrainingEnv; EnvStart TrainingEnv]
                   ++ t1 ++ [AgentExplorationStep]
                   ++ (episodes (seqZ (Z.succ first) (Z.of_nat len)) fuel num_steps
                         eval_env schedule eval_point_index v1
                         (react AgentExplorationStep w1)).1.1)
              = length (drop eval_point_index schedule)).
      rewrite !count_calls_app, Ht1, IH.
      * done.
      * rewrite (drop_S _ _ _ Hpoint). constructor; [lia|].
        rewrite Forall_forall in Hhead, Hrest |- *. intros x Hx.
        specialize (Hhead x Hx). specialize (Hrest x Hx). lia.
Qed.

(** X17.  When the computed schedule is strictly ascending and starts at
    episode 1 or later, a run that returns has made exactly one evaluation
    pass for every entry of the schedule. *)
Theorem one_evaluation_per_scheduled_episode fuel args w schedule :
  ¬ (num_steps args = 0 ∨ num_steps args < -1) →
  evaluation_schedule (num_episodes args) (eval_schedule args) = Ok schedule →
  StronglySorted Z.lt schedule →
  Forall (λ x, 1 ≤ x) schedule →
  (actor fuel args w).2 = Returned tt →
  count_calls is_evaluation (actor fuel args w).1.1 = length schedule.
Proof.
  intros Hok Hs Hsorted Hfirst.
  pose proof (evaluation_schedule_last _ _ _ Hs) as Hlast.
  rewrite (actor_unfold fuel args w schedule Hok Hs). simpl.
  assert (Hn : 0 ≤ num_episodes args).
  { apply last_Some_elem_of in Hlast. rewrite Forall_forall in Hfirst.
    specialize (Hfirst _ Hlast). lia. }
  replace (seqZ 1 (num_episodes args))
    with (seqZ 1 (Z.of_nat (Z.to_nat (num_episodes args))))
    by by rewrite Z2Nat.id.
  match goal with
  | |- context [episodes (seqZ 1 (Z.of_nat ?len)) ?f ?n ?env ?s ?i ?v ?w'] =>
      pose proof (episodes_evaluations f n env s len 1 i v w') as Hcount;
      destruct (episodes (seqZ 1 (Z.of_nat len)) f n env s i v w')
        as [[t w''] [[]|e|]]
  end; simpl in *; [|done|done].
  intros _.
  change (count_calls is_evaluation
            ([ProxyCreate; ProxySend GET_INITIAL_POLICY_STATE None;
              AgentSetPolicyStates] ++ t ++ [ProxyISend DONE; ProxyClose])
          = length schedule).
  rewrite !count_calls_app, Hcount; [done|done|done|].
  apply last_Some in Hlast as [front ->].
  apply Forall_forall. intros x Hx.
  rewrite Forall_forall in Hfirst. specialize (Hfirst x Hx).
  split; [done|].
  apply elem_of_app in Hx as [Hx|Hx%list_elem_of_singleton]; [|lia].
  assert (x < num_episodes args); [|lia].
  clear -Hsorted Hx. induction front as [|y front IH]; [by apply elem_of_nil in Hx|].
  simpl in Hsorted. apply StronglySorted_inv in Hsorted as [Hs Hall].
  apply elem_of_cons in Hx as [->|Hx]; [|by apply IH].
  rewrite Forall_forall in Hall. apply Hall. apply elem_of_app. right.
  by apply list_elem_of_singleton.
Qed.

(** *** Steps and environments *)

Lemma rollout_succ fuel steps_to_go w :
  rollout (S fuel) steps_to_go w
  = if env_state TrainingEnv w && negb (steps_to_go =? 0) then
      let run := rollout fuel (steps_to_go - 1)
                   (react (EnvStep TrainingEnv)
                      (react (AgentChooseAction TrainingEnv) w)) in
      (AgentChooseAction TrainingEnv :: EnvStep TrainingEnv :: run.1.1,
       run.1.2, run.2)
    else ([], w, Returned tt).
Proof.
  simpl. unfold bind at 1. unfold observe at 1. simpl.
  destruct (env_state TrainingEnv w && negb (steps_to_go =? 0)); [|done].
  unfold bind, call. simpl.
  by destruct (rollout fuel (steps_to_go - 1) _) as [[t w'] o].
Qed.

(** X18.  One roll-out with a step budget [steps_to_go] of zero or more takes
    at most that many environment steps; when it returns, the environment
    has come to its end or the budget is used up exactly.  With a negative
    budget it only returns at the end of the environment. *)
Theorem rollout_respects_step_budget fuel : ∀ steps_to_go w,
  let run := rollout fuel steps_to_go w in
  (0 ≤ steps_to_go →
   (count_calls is_env_step run.1.1 ≤ Z.to_nat steps_to_go)%nat)
  ∧ (run.2 = Returned tt →
     env_state TrainingEnv run.1.2 = false
     ∨ (0 ≤ steps_to_go
        ∧ count_calls is_env_step run.1.1 = Z.to_nat steps_to_go)).
Proof.
  induction fuel as [|fuel IH]; intros steps_to_go w.
  { simpl. split; [intros _; apply Nat.le_0_l|done]. }
  cbv zeta. rewrite rollout_succ.
  destruct (env_state TrainingEnv w) eqn:Hstate; simpl.
  - destruct (steps_to_go =? 0) eqn:Hzero; simpl.
    + apply Z.eqb_eq in Hzero as ->. split; [intros _; apply Nat.le_0_l|].
      intros _. right. by split.
    + apply Z.eqb_neq in Hzero.
      specialize (IH (steps_to_go - 1)
                    (react (EnvStep TrainingEnv)
                       (react (AgentChooseAction TrainingEnv) w))).
      destruct (rollout fuel (steps_to_go - 1) _) as [[t w'] o]. simpl in *.
      destruct IH as [Hle Hend].
      change (count_calls is_env_step
                (AgentChooseAction TrainingEnv :: EnvStep TrainingEnv :: t))
        with (S (count_calls is_env_step t)).
      split.
      * intros Hpos. specialize (Hle ltac:(lia)). lia.
      * intros Hret. destruct (Hend Hret) as [Hfalse|[Hpos Hcount]];
          [by left|right]. split; [lia|]. rewrite Hcount. lia.
  - split; [intros _; apply Nat.le_0_l|]. intros _. by left.
Qed.

(** X19.  Unless a separate evaluation environment was passed, no call of
    the run goes to one: evaluation runs on the training environment. *)
Theorem evaluation_env_only_when_given fuel args w :
  eval_env_wrapper args ≠ Some EvaluationEnv →
  Forall (λ e, touches_evaluation_env e = false) (actor fuel args w).1.1.
Proof.
  intros Hnone.
  destruct (decide (num_steps args = 0 ∨ num_steps args < -1)) as [Hbad|Hok].
  { rewrite actor_invalid by done. constructor. }
  destruct (evaluation_schedule_result (num_episodes args) (eval_schedule args))
    as [[Hz _]|[_ [schedule Hs]]].
  { rewrite actor_zero_period by done. by repeat constructor. }
  rewrite (actor_unfold fuel args w schedule Hok Hs). simpl.
  assert (Henv : default TrainingEnv (eval_env_wrapper args) = TrainingEnv).
  { destruct (eval_env_wrapper args) as [[]|]; done. }
  rewrite Henv.
  match goal with
  | |- context [episodes ?eps ?f ?n ?env ?s ?i ?v ?w'] =>
      pose proof (episodes_calls eps f n env s i v w') as [Hcalls _];
      destruct (episodes eps f n env s i v w') as [[t w''] o]
  end. simpl in *.
  assert (Ht : Forall (λ e, touches_evaluation_env e = false) t).
  { eapply Forall_impl; [exact Hcalls|].
    intros [| [] [v|] | | | [] | [] | [] | [] | | | [] | | | | ]; done. }
  destruct o as [[]|e|]; simpl.
  - repeat (apply Forall_cons; split; [done|]).
    apply Forall_app. split; [done|]. by repeat constructor.
  - by repeat (apply Forall_cons; split; [done|]).
  - by repeat (apply Forall_cons; split; [done|]).
Qed.

(** *** Hand-over of the experiences *)

Section Balance.
Variables p q : Event Version → bool.
Hypothesis other_calls : ∀ eval_env e,
  in_episode eval_env e = true → is_hand_over e = false →
  p e = false ∧ q e = false.
Hypothesis hand_over_balance : ∀ v, balance p q (hand_over v) = 0.

Lemma balance_app (t1 t2 : list (Event Version)) :
  balance p q (t1 ++ t2) = balance p q t1 + balance p q t2.
Proof. unfold balance. rewrite !count_calls_app. lia. Qed.

Lemma balance_others eval_env (t : list (Event Version)) :
  Forall (λ e, in_episode eval_env e = true ∧ is_hand_over e = false) t →
  balance p q t = 0.
Proof.
  intros Hall. unfold balance.
  rewrite !count_calls_none; [done| |].
  - eapply Forall_impl; [exact Hall|]. intros e [He Hh].
    by destruct (other_calls eval_env e He Hh).
  - eapply Forall_impl; [exact Hall|]. intros e [He Hh].
    by destruct (other_calls eval_env e He Hh).
Qed.

Lemma rollout_balance fuel steps_to_go w :
  balance p q (rollout fuel steps_to_go w).1.1 = 0.
Proof.
  apply (balance_others TrainingEnv).
  destruct (rollout_calls fuel steps_to_go w) as [Hcalls _].
  eapply Forall_impl; [exact Hcalls|].
  intros [| [] [v|] | | | [] | [] | [] | [] | | | [] | | | | ]; done.
Qed.

Lemma evaluate_balance fuel eval_env w :
  balance p q (evaluate fuel eval_env w).1.1 = 0.
Proof.
  apply (balance_others eval_env).
  destruct (evaluate_calls fuel eval_env w) as [Hcalls _].
  eapply Forall_impl; [exact Hcalls|].
  intros e He. split.
  - unfold in_episode. rewrite He. by rewrite orb_true_r.
  - by destruct e as [| [] [v|] | | | [] | [] | [] | [] | | | [] | | | | ].
Qed.

Lemma segments_balance n fuel num_steps : ∀ policy_version w,
  balance p q (segments n fuel num_steps policy_version w).1.1 = 0.
Proof.
  induction n as [|n IH]; intros policy_version w; [done|].
  rewrite segments_succ.
  destruct (env_state TrainingEnv w); [|done].
  pose proof (rollout_balance fuel num_steps w) as Hroll.
  destruct (rollout fuel num_steps w) as [[t1 w1] [[]|e|]];
    cbv zeta; cbn [fst snd] in *; [|done|done].
  by rewrite !balance_app, Hroll, hand_over_balance, IH.
Qed.

Lemma episodes_balance eps fuel num_steps eval_env schedule :
  ∀ eval_point_index policy_version w,
  balance p q (episodes eps fuel num_steps eval_env schedule
                 eval_point_index policy_version w).1.1 = 0.
Proof.
  assert (Hstart : balance p q
            [AgentExplore; EnvReset TrainingEnv; EnvStart TrainingEnv] = 0).
  { apply (balance_others eval_env). by repeat constructor. }
  assert (Hend : balance p q [AgentExplorationStep] = 0).
  { apply (balance_others eval_env). by repeat constructor. }
  assert (Heval : balance p q [AgentExplorationStep; AgentExploit;
                               EnvReset eval_env; EnvStart eval_env] = 0).
  { apply (balance_others eval_env). destruct eval_env; by repeat constructor. }
  induction eps as [|ep rest IH]; intros eval_point_index policy_version w;
    [done|].
  rewrite episodes_cons.
  pose proof (segments_balance fuel fuel num_steps policy_version
                (react (EnvStart TrainingEnv)
                   (react (EnvReset TrainingEnv) (react AgentExplore w))))
    as Hseg.
  destruct (segments fuel fuel num_steps policy_version _)
    as [[t1 w1] [v1|e1|]]; simpl in Hseg |- *.
  - destruct (schedule !! eval_point_index) as [point|]; simpl.
    + destruct (decide (ep = point)).
      * match goal with
        | |- context [evaluate ?f ?env ?w'] =>
            pose proof (evaluate_balance f env w') as Hev;
            destruct (evaluate f env w') as [[t2 w2] [[]|e2|]]
        end; simpl in Hev |- *.
        -- change (balance p q
                     ([AgentExplore; EnvReset TrainingEnv; EnvStart TrainingEnv]
                        ++ t1 ++ [AgentExplorationStep; AgentExploit;
                                  EnvReset eval_env; EnvStart eval_env] ++ t2
                        ++ (episodes rest fuel num_steps eval_env schedule
                              (S eval_point_index) v1 w2).1.1) = 0).
           by rewrite !balance_app, Hstart, Hseg, Heval, Hev, IH.
        -- change (balance p q
                     ([AgentExplore; EnvReset TrainingEnv; EnvStart TrainingEnv]
                        ++ t1 ++ [AgentExplorationStep; AgentExploit;
                                  EnvReset eval_env; EnvStart eval_env] ++ t2) = 0).
           by rewrite !balance_app, Hstart, Hseg, Heval, Hev.
        -- change (balance p q
                     ([AgentExplore; EnvReset TrainingEnv; EnvStart TrainingEnv]
                        ++ t1 ++ [AgentExplorationStep; AgentExploit;
                                  EnvReset eval_env; EnvStart eval_env] ++ t2) = 0).
           by rewrite !balance_app, Hstart, Hseg, Heval, Hev.
      * change (balance p q
                  ([AgentExplore; EnvReset TrainingEnv; EnvStart TrainingEnv]
                     ++ t1 ++ [AgentExplorationStep]
                     ++ (episodes rest fuel num_steps eval_env schedule
                           eval_point_index v1
                           (react AgentExplorationStep w1)).1.1) = 0).
        by rewrite !balance_app, Hstart, Hseg, Hend, IH.
    + change (balance p q
                ([AgentExplore; EnvReset TrainingEnv; EnvStart TrainingEnv]
                   ++ t1 ++ [AgentExplorationStep]) = 0).
      by rewrite !balance_app, Hstart, Hseg, Hend.
  - change (balance p q
              ([AgentExplore; EnvReset TrainingEnv; EnvStart TrainingEnv] ++ t1)
            = 0).
    by rewrite !balance_app, Hstart, Hseg.
  - change (balance p q
              ([AgentExplore; EnvReset TrainingEnv; EnvStart TrainingEnv] ++ t1)
            = 0).
    by rewrite !balance_app, Hstart, Hseg.
Qed.

Hypothesis opening_balance :
  balance p q [ProxyCreate] = 0
  ∧ balance p q [ProxyCreate; ProxySend GET_INITIAL_POLICY_STATE None;
                 AgentSetPolicyStates] = 0
  ∧ balance p q [ProxyISend DONE; ProxyClose] = 0.

Lemma actor_balance fuel args w :
  balance p q (actor fuel args w).1.1 = 0.
Proof.
  destruct opening_balance as (Hcreate & Hopen & Hclose).
  destruct (decide (num_steps args = 0 ∨ num_steps args < -1)) as [Hbad|Hok].
  { by rewrite actor_invalid. }
  destruct (evaluation_schedule_result (num_episodes args) (eval_schedule args))
    as [[Hz _]|[_ [schedule Hs]]].
  { by rewrite actor_zero_period. }
  rewrite (actor_unfold fuel args w schedule Hok Hs). simpl.
  match goal with
  | |- context [episodes ?eps ?f ?n ?env ?s ?i ?v ?w'] =>
      pose proof (episodes_balance eps f n env s i v w') as Hrun;
      destruct (episodes eps f n env s i v w') as [[t w''] [[]|e|]]
  end; simpl in Hrun |- *.
  - change (balance p q
              ([ProxyCreate; ProxySend GET_INITIAL_POLICY_STATE None;
                AgentSetPolicyStates] ++ t ++ [ProxyISend DONE; ProxyClose]) = 0).
    by rewrite !balance_app, Hopen, Hrun, Hclose.
  - change (balance p q
              ([ProxyCreate; ProxySend GET_INITIAL_POLICY_STATE None;
                AgentSetPolicyStates] ++ t) = 0).
    by rewrite !balance_app, Hopen, Hrun.
  - change (balance p q
              ([ProxyCreate; ProxySend GET_INITIAL_POLICY_STATE None;
                AgentSetPolicyStates] ++ t) = 0).
    by rewrite !balance_app, Hopen, Hrun.
Qed.

End Balance.

(** X20.  In a run whose calls on the collaborators all return, the
    experiences taken from the training environment are sent to the policy
    server once each (as many [COLLECT_DONE] round trips as calls of
    [get_experiences]), and the reply of every round trip is applied (as
    many calls of [set_policy_states] as round trips).  The counts agree
    when the run returns, when it raises for its arguments, and at the head
    of every turn of a [while] loop (where the fuel may stop the run). *)
Theorem experiences_are_sent_and_replies_applied fuel args w :
  let t := (actor fuel args w).1.1 in
  count_calls is_get_experiences t = count_calls is_collect_done t
  ∧ count_calls is_round_trip t = count_calls is_set_policy_states t.
Proof.
  simpl. split.
  - assert (Hb : balance is_get_experiences is_collect_done
                   (actor fuel args w).1.1 = 0).
    { apply actor_balance; [|done|done].
      intros eval_env
        [| [] [v|] | | | [] | [] | [] | [] | | | [] | | | | ];
        destruct eval_env; done. }
    unfold balance in Hb. lia.
  - assert (Hb : balance is_round_trip is_set_policy_states
                   (actor fuel args w).1.1 = 0).
    { apply actor_balance; [|done|done].
      intros eval_env
        [| [] [v|] | | | [] | [] | [] | [] | | | [] | | | | ];
        destruct eval_env; done. }
    unfold balance in Hb. lia.
Qed.

End Laws.

(** *** Runs that return *)

Section Bounded.
Context `{Surroundings}.
Variable budget : EnvRef → World → nat.
Variable bound : nat.
Hypothesis budget_bound : ∀ env w, (budget env w ≤ bound)%nat.
Hypothesis state_budget : ∀ env w, env_state env w = true → (0 < budget env w)%nat.
Hypothesis step_budget : ∀ env w,
  (0 < budget env w)%nat → (budget env (react (EnvStep env) w) < budget env w)%nat.
Hypothesis quiet_budget : ∀ env e w,
  is_quiet e = true → budget env (react e w) = budget env w.

(** X21.  When a number [budget] of steps left, at most [bound], is at least
    one while an environment goes on, decreases with every step and is not
    changed by the calls other than [reset], [start] and [step], then a run
    with valid arguments and more fuel than [bound] returns. *)
Theorem bounded_episodes_make_the_run_return fuel args w :
  ¬ (num_steps args = 0 ∨ num_steps args < -1) →
  eval_schedule args ≠ ScheduleInt 0 →
  (bound < fuel)%nat →
  (actor fuel args w).2 = Returned tt.
Proof. by apply (actor_returns budget bound). Qed.

End Bounded.
End ActorLaws.

(** * The further properties at concrete inputs *)

Module LawInstances.
Import PolicyManager Actor Calls PolicyManagerFacts ActorFacts Fixtures.
Import ManagerLaws ActorLaws.

Lemma mixed_manager_ok : manager_ok mixed_manager.
Proof.
  apply (init_manager_ok [("P"%string, trainable); ("F"%string, frozen)] TriggerNone).
  - apply NoDup_cons. split; [by intros [=]%list_elem_of_singleton|].
    apply NoDup_singleton.
  - reflexivity.
Defined.

Lemma init_gives_trigger_to_updatable_witness :
  ∃ m, __init__ [("P"%string, trainable); ("F"%string, frozen)] TriggerNone = Ok m
       ∧ (∀ q, q ∈ _updatable_policy_dict m
               ↔ ∃ policy,
                   (q, policy) ∈ [("P"%string, trainable); ("F"%string, frozen)]
                   ∧ is_Some (experience_memory policy)
                   ∧ has_update policy = true)
       ∧ (∀ q, _update_trigger m !! q
               = if decide (q ∈ _updatable_policy_dict m)
                 then Some (mkTrigger 1 1) else None).
Proof.
  apply (init_gives_trigger_to_updatable
           [("P"%string, trainable); ("F"%string, frozen)] TriggerNone).
  intros d. discriminate.
Defined.

Example default_triggers :
  _updatable_policy_dict mixed_manager = ["P"%string]
  ∧ _update_trigger mixed_manager !! "P"%string = Some (mkTrigger 1 1)
  ∧ _update_trigger mixed_manager !! "F"%string = None.
Proof. split_and!; reflexivity. Qed.

Lemma fresh_manager_has_nothing_pending_witness :
  names gated_manager = [("P"%string, trainable)].*1
  ∧ (∀ q, new_exp_counter gated_manager q = 0)
  ∧ (get_state gated_manager).1 = Ok ∅.
Proof.
  apply (fresh_manager_has_nothing_pending [("P"%string, trainable)]
           (TriggerSingle (mkTrigger 10 20)) gated_manager).
  reflexivity.
Defined.

Lemma updates_are_updatable_policies_witness :
  let r := on_experiences mixed_manager
             [("P"%string, batch 2); ("F"%string, batch 3)] in
  updates r `sublist_of` _updatable_policy_dict mixed_manager
  ∧ NoDup (updates r)
  ∧ ∀ q, q ∈ updates r →
         ∃ policy, policy_dict mixed_manager !! q = Some policy
                   ∧ is_Some (experience_memory policy)
                   ∧ has_update policy = true.
Proof.
  apply (updates_are_updatable_policies mixed_manager
           [("P"%string, batch 2); ("F"%string, batch 3)]).
  exact mixed_manager_ok.
Defined.

Lemma batch_for_policy_without_memory_is_discarded_witness :
  on_experiences mixed_manager
    ([("P"%string, batch 2)] ++ ("F"%string, batch 3) :: [])
  = on_experiences mixed_manager ([("P"%string, batch 2)] ++ []).
Proof.
  apply (batch_for_policy_without_memory_is_discarded mixed_manager
           [("P"%string, batch 2)] [] "F" (batch 3) frozen).
  - reflexivity.
  - reflexivity.
Defined.

Lemma delivered_batch_is_stored_witness :
  let r := on_experiences gated_manager [("P"%string, batch 5)] in
  policy_dict (manager r) !! "P"%string
  = Some (if decide ("P"%string ∈ updates r)
          then mkPolicy
                 (Some (policy_update (mem_put empty_memory (batch 5))
                          (policy_state trainable)).1)
                 (has_update trainable)
                 (policy_update (mem_put empty_memory (batch 5))
                    (policy_state trainable)).2
          else mkPolicy (Some (mem_put empty_memory (batch 5)))
                 (has_update trainable) (policy_state trainable)).
Proof.
  apply (delivered_batch_is_stored gated_manager [("P"%string, batch 5)]
           "P" (batch 5) trainable empty_memory).
  - exact Instances.gated_manager_ok.
  - repeat constructor. by intros ?%elem_of_nil.
  - apply list_elem_of_here.
  - reflexivity.
  - reflexivity.
  - reflexivity.
Defined.

Example stored_batch :
  let r := on_experiences gated_manager [("P"%string, batch 5)] in
  raised r = None
  ∧ experience_memory <$> policy_dict (manager r) !! "P"%string
    = Some (Some (buffer 5)).
Proof. split; reflexivity. Qed.

Lemma key_error_keeps_the_entries_in_front_witness :
  on_experiences gated_manager
    ([("P"%string, batch 5)] ++ ("Q"%string, batch 1) :: [("P"%string, batch 7)])
  = mkSubmitted (store_experiences [("P"%string, batch 5)] gated_manager).1 []
      (Some (KeyError "Q")).
Proof.
  apply (key_error_keeps_the_entries_in_front gated_manager
           [("P"%string, batch 5)] [("P"%string, batch 7)] "Q" (batch 1)).
  - apply Forall_singleton. apply elem_of_dom. by eexists.
  - apply not_elem_of_dom. reflexivity.
Defined.

Example entries_in_front_are_counted :
  new_exp_counter
    (manager (on_experiences gated_manager
                [("P"%string, batch 5); ("Q"%string, batch 1);
                 ("P"%string, batch 7)])) "P" = 5.
Proof. reflexivity. Qed.

Lemma updated_policies_accumulate_witness :
  let r1 := on_experiences gated_manager [("P"%string, batch 25)] in
  let r2 := on_experiences (manager r1) [] in
  ∃ d, (get_state (manager r2)).1 = Ok d
       ∧ dom d = list_to_set (updates r1) ∪ list_to_set (updates r2)
                 ∪ _updated_policy_ids gated_manager.
Proof.
  apply (updated_policies_accumulate gated_manager [("P"%string, batch 25)] []).
  exact Instances.gated_manager_ok.
Defined.

(** With ["P"] in the updated set, [get_state] exports the state of ["P"]
    after its update. *)
Lemma get_state_exports_current_state_witness :
  _updated_policy_ids updated_manager = {["P"%string]}
  ∧ ∃ d, (get_state updated_manager).1 = Ok d
         ∧ d !! "P"%string = Some 1%nat
         ∧ ∀ q, d !! q
                = if decide (q ∈ _updated_policy_ids updated_manager)
                  then policy_state <$> policy_dict updated_manager !! q
                  else None.
Proof.
  split; [reflexivity|].
  destruct (get_state_exports_current_state updated_manager
              Instances.updated_manager_ok) as (d & Hget & Hval).
  exists d. split_and!; [done| |done].
  rewrite Hval. reflexivity.
Defined.

Lemma no_second_update_without_new_records_witness :
  let r1 := on_experiences gated_manager [("P"%string, batch 25)] in
  let r2 := on_experiences (manager r1) [] in
  "P"%string ∉ updates r2.
Proof.
  apply (no_second_update_without_new_records gated_manager
           [("P"%string, batch 25)] [] "P" (mkTrigger 10 20)).
  - exact Instances.gated_manager_ok.
  - reflexivity.
  - simpl. lia.
  - apply list_elem_of_here.
  - reflexivity.
Defined.

Lemma periodic_schedule_members_witness :
  ∃ schedule,
    evaluation_schedule 10 (ScheduleInt 3) = Ok schedule
    ∧ ∀ x, x ∈ schedule
           ↔ x = 10 ∨ ∃ i, 1 ≤ i ∧ x = 3 * i ∧ x ≤ 10.
Proof. apply (periodic_schedule_members 10 3). lia. Defined.

Lemma schedule_of_last_episode_only_witness :
  evaluation_schedule 3 (ScheduleInt 5) = Ok [3].
Proof.
  apply (schedule_of_last_episode_only 3 (ScheduleInt 5)). simpl. lia.
Defined.

Lemma zero_period_raises_after_proxy_creation_witness :
  actor (H := countdown) 4 zero_period start_world
  = ([ProxyCreate], react ProxyCreate start_world, Raised ZeroDivisionError).
Proof.
  apply (zero_period_raises_after_proxy_creation (H := countdown) 4 zero_period).
  - simpl. lia.
  - reflexivity.
Defined.

Lemma actor_raises_only_for_its_arguments_witness :
  (ValueError = ValueError
   ∧ (num_steps zero_steps = 0 ∨ num_steps zero_steps < -1))
  ∨ (ValueError = ZeroDivisionError
     ∧ ¬ (num_steps zero_steps = 0 ∨ num_steps zero_steps < -1)
     ∧ eval_schedule zero_steps = ScheduleInt 0).
Proof.
  apply (actor_raises_only_for_its_arguments (H := countdown) 4 zero_steps
           start_world ValueError).
  reflexivity.
Defined.

Lemma no_episode_no_environment_call_witness :
  (actor (H := countdown) 0 no_episode start_world).1.1
  = [ProxyCreate; ProxySend GET_INITIAL_POLICY_STATE None; AgentSetPolicyStates;
     ProxyISend DONE; ProxyClose]
  ∧ (actor (H := countdown) 0 no_episode start_world).2 = Returned tt.
Proof.
  apply (no_episode_no_environment_call (H := countdown) 0 no_episode start_world).
  - simpl. lia.
  - done.
  - simpl. lia.
Defined.

Lemma one_evaluation_per_scheduled_episode_witness :
  count_calls is_evaluation
    (actor (H := countdown) 4 every_second_episode start_world).1.1
  = length [2; 3].
Proof.
  apply (one_evaluation_per_scheduled_episode (H := countdown) 4
           every_second_episode start_world [2; 3]).
  - simpl. lia.
  - reflexivity.
  - by repeat constructor.
  - repeat constructor; lia.
  - reflexivity.
Defined.

Lemma evaluation_env_only_when_given_witness :
  Forall (λ e, touches_evaluation_env e = false)
    (actor (H := countdown) 4 three_episodes start_world).1.1.
Proof.
  apply (evaluation_env_only_when_given (H := countdown) 4 three_episodes).
  done.
Defined.

Lemma bounded_episodes_make_the_run_return_witness :
  (actor (H := countdown) 4 every_second_episode start_world).2 = Returned tt.
Proof.
  apply (bounded_episodes_make_the_run_return (H := countdown) steps_left 3).
  - intros [] [[training evaluation] version]; simpl; lia.
  - intros [] [[[|training] [|evaluation]] version]; simpl; intros Hs;
      try discriminate; lia.
  - intros [] [[training evaluation] version]; simpl; lia.
  - intros env e [[training evaluation] version] Hq.
    destruct e as [| | | |[]|[]|[]| | | | | | | |]; try done;
      by destruct env.
  - simpl. lia.
  - done.
  - lia.
Defined.

Example rollout_of_two_steps :
  let run := rollout (H := countdown) 4 2 (3%nat, 0%nat, 0%nat) in
  count_calls is_env_step run.1.1 = 2%nat
  ∧ run.2 = Returned tt
  ∧ env_state TrainingEnv run.1.2 = true.
Proof. split_and!; reflexivity. Qed.

End LawInstances.

(** * Properties of the action records *)

Module RLPolicyLaws.
Import RLPolicy.
Section Laws.
Context {Action Value Logp : Type}.
Implicit Types (actions : list Action) (values : option (list Value))
  (logps : option (list Logp)).

Lemma entry_or_none_covered {A} (array : option (list A)) (i size : nat) :
  covers array size → (i < size)%nat →
  entry_or_none array i = Ok (array ≫= (λ entries, entries !! i)).
Proof.
  intros Hc Hi. destruct array as [entries|]; simpl in *; [|done].
  destruct (lookup_lt_is_Some_2 entries i ltac:(lia)) as [x Hx].
  by rewrite Hx.
Qed.


Lemma collect_aux_covered actions values logps (len : nat) : ∀ start acc,
  (start + len ≤ length actions)%nat →
  covers values (start + len) → covers logps (start + len) →
  ∃ rest,
    collect_aux actions values logps (seq start len) acc = Ok (acc ++ rest)
    ∧ length rest = len
    ∧ ∀ j, (j < len)%nat → rest !! j = aux_at actions values logps (start + j).
Proof.
  induction len as [|len IH]; intros start acc Hlen Hv Hl; simpl.
  - exists []. rewrite app_nil_r. split_and!; [done|done|]. intros j Hj. lia.
  - destruct (lookup_lt_is_Some_2 actions start ltac:(lia)) as [a Ha].
    rewrite Ha.
    rewrite (entry_or_none_covered values start (start + S len)) by (done || lia).
    rewrite (entry_or_none_covered logps start (start + S len)) by (done || lia).
    destruct (IH (S start)
                (acc ++ [mkActionWithAux a
                           (values ≫= (λ entries, entries !! start))
                           (logps ≫= (λ entries, entries !! start))]))
      as (rest & Hrun & Hrest & Hat).
    { lia. }
    { by replace (S start + len)%nat with (start + S len)%nat by lia. }
    { by replace (S start + len)%nat with (start + S len)%nat by lia. }
    eexists (_ :: rest). rewrite Hrun, <- app_assoc. split_and!; [done| |].
    + simpl. by rewrite Hrest.
    + intros [|j] Hj; simpl.
      * rewrite Nat.add_0_r. unfold aux_at. by rewrite Ha.
      * rewrite Hat by lia. f_equal. lia.
Qed.


(** X22.  When the arrays of values and of log-probabilities, where they are
    given, have an entry for every action, [get_actions_with_aux] returns
    one record per action, in order: the record of index [i] holds the
    action, the value and the log-probability of index [i], and [None] where
    an array is [None]. *)
Theorem get_actions_with_aux_pairs_the_arrays actions values logps :
  covers values (length actions) →
  covers logps (length actions) →
  ∃ records,
    get_actions_with_aux actions values logps = Ok records
    ∧ length records = length actions
    ∧ ∀ i, records !! i = aux_at actions values logps i.
Proof.
  intros Hv Hl. unfold get_actions_with_aux.
  destruct (collect_aux_covered actions values logps (length actions) 0 [])
    as (rest & Hrun & Hlen & Hat); [done|done|done|].
  exists rest. rewrite Hrun. split_and!; [done|done|].
  intros i. destruct (decide (i < length actions)%nat) as [Hi|Hi].
  - by apply Hat.
  - rewrite (lookup_ge_None_2 rest) by lia.
    unfold aux_at. by rewrite (lookup_ge_None_2 actions) by lia.
Qed.


End Laws.
End RLPolicyLaws.

(** * Properties of the node pools and the job details *)

Module AksExecutorLaws.
Import AksExecutor.

Lemma foldl_insert_lookup {A} (key : A → string) (l : list A) : ∀ (d : gmap string A) k,
  foldl (λ acc x, <[key x := x]> acc) d l !! k
  = match last (filter (λ x, key x = k) l) with
    | Some x => Some x
    | None => d !! k
    end.
Proof.
  induction l as [|x l IH]; intros d k; simpl; [done|].
  rewrite IH. destruct (decide (key x = k)) as [Hk|Hk].
  - rewrite filter_cons_True by done.
    rewrite last_cons. destruct (last (filter _ l)); [done|].
    by rewrite Hk, lookup_insert_eq.
  - rewrite filter_cons_False by done.
    destruct (last (filter _ l)); [done|]. by rewrite lookup_insert_ne.
Qed.

Section Nodes.
Context {NodePool VmSize : Type}.
Variable pool_name : NodePool → string.
Variable pool_vm_size : NodePool → string.
Variable pool_count : NodePool → Z.
Variable vm_size_name : VmSize → string.
Variable _generate_nodepool_name : string → string.

(** X24.  The two dictionaries built from the listings of Azure keep, for
    every VM size, the last listed node pool of that size, and for every
    name the last listed VM size of that name. *)
Theorem node_size_dictionaries_keep_the_last_entry
    (nodepools : list NodePool) (specs : list VmSize) (node_size : string) :
  _get_node_size_to_info pool_vm_size nodepools !! node_size
  = last (filter (λ nodepool, pool_vm_size nodepool = node_size) nodepools)
  ∧ _get_node_size_to_spec vm_size_name specs !! node_size
    = last (filter (λ spec, vm_size_name spec = node_size) specs).
Proof.
  unfold _get_node_size_to_info, _get_node_size_to_spec.
  rewrite !foldl_insert_lookup, !lookup_empty.
  split; by destruct (last _).
Qed.

Lemma vm_size_is_listed
    (specs : list VmSize) (node_size : string) :
  (is_Some (_get_node_size_to_spec vm_size_name specs !! node_size)
   → node_size ∈ vm_size_name <$> specs)
  ∧ (_get_node_size_to_spec vm_size_name specs !! node_size = None
     → node_size ∉ vm_size_name <$> specs).
Proof.
  unfold _get_node_size_to_spec. rewrite foldl_insert_lookup, lookup_empty.
  destruct (last (filter (λ spec, vm_size_name spec = node_size) specs))
    as [spec|] eqn:Hlast.
  - split; [|done]. intros _. apply last_Some_elem_of in Hlast.
    apply list_elem_of_filter in Hlast as [<- Hin].
    by apply list_elem_of_fmap_2.
  - split; [by intros [? [=]]|]. intros _ Hin.
    apply list_elem_of_fmap in Hin as (spec & -> & Hin).
    assert (Hf : spec ∈ filter (λ s, vm_size_name s = vm_size_name spec) specs)
      by by apply list_elem_of_filter.
    destruct (filter _ specs) as [|y l] eqn:Hfl; [by apply elem_of_nil in Hf|].
    rewrite last_cons in Hlast. by destruct (last l).
Qed.

(** X25.  [scale_node] raises [BadRequestError], with no change made, exactly
    when the node size is not the name of a listed VM size.  Otherwise it
    makes at most one change: it adds a node pool when no pool of that size
    is listed, it scales the last listed pool of that size when the count
    of that pool differs from [replicas], and it does nothing when the
    count is [replicas] already. *)
Theorem scale_node_makes_one_change (cluster_id resource_group : string)
    (nodepools : list NodePool) (specs : list VmSize)
    (replicas : Z) (node_size : string) :
  let scaled := scale_node pool_name pool_vm_size pool_count vm_size_name
                  _generate_nodepool_name cluster_id resource_group
                  nodepools specs replicas node_size in
  let aks_name := (cluster_id +:+ "-aks")%string in
  (scaled = BadRequestError ↔ node_size ∉ vm_size_name <$> specs)
  ∧ (node_size ∈ vm_size_name <$> specs →
     scaled
     = match last (filter (λ nodepool, pool_vm_size nodepool = node_size)
                     nodepools) with
       | None =>
           Called [add_nodepool resource_group aks_name
                     (_generate_nodepool_name node_size) replicas node_size]
       | Some nodepool =>
           if decide (pool_count nodepool = replicas) then Called []
           else Called [scale_nodepool resource_group aks_name
                          (pool_name nodepool) replicas]
       end).
Proof.
  simpl. unfold scale_node.
  destruct (vm_size_is_listed specs node_size)
    as [Hin Hout].
  destruct (_get_node_size_to_spec vm_size_name specs !! node_size)
    as [spec|] eqn:Hspec.
  - split.
    + split; [|by intros Hno; destruct Hno; apply Hin].
      unfold _get_node_size_to_info.
      destruct (foldl _ ∅ nodepools !! node_size); [|done].
      by destruct (decide _).
    + intros _. unfold _get_node_size_to_info.
      rewrite foldl_insert_lookup, lookup_empty.
      destruct (last _) as [nodepool|]; [|done].
      destruct (decide (pool_count nodepool = replicas)).
      * by rewrite decide_False by tauto.
      * by rewrite decide_True.
  - split; [split; [intros _; by apply Hout|done]|].
    intros Hyes. by apply Hout in Hyes.
Qed.

End Nodes.

Section Jobs.
Context {Json : Type}.
Variable json_str : string → Json.
Variable json_dict : gmap string Json → Json.

(** X26.  [_build_job_details] needs the keys ["name"] and ["job_names"]: it
    raises [KeyError] for the first of them that is missing.  Otherwise the
    job details carry the job name under ["name"], the name of the schedule
    under ["tags"], no ["job_names"], and every other entry of the schedule
    details unchanged. *)
Theorem build_job_details_renames_and_tags
    (schedule_details : gmap string Json) (job_name : string) :
  match schedule_details !! "name"%string,
        schedule_details !! "job_names"%string with
  | None, _ =>
      _build_job_details json_str json_dict schedule_details job_name
      = Raise (KeyError "name")
  | Some _, None =>
      _build_job_details json_str json_dict schedule_details job_name
      = Raise (KeyError "job_names")
  | Some schedule_name, Some _ =>
      ∃ job_details,
        _build_job_details json_str json_dict schedule_details job_name
        = Ok job_details
        ∧ job_details !! "name"%string = Some (json_str job_name)
        ∧ job_details !! "tags"%string
          = Some (json_dict {["schedule"%string := schedule_name]})
        ∧ job_details !! "job_names"%string = None
        ∧ ∀ key, key ≠ "name"%string → key ≠ "tags"%string →
                 key ≠ "job_names"%string →
                 job_details !! key = schedule_details !! key
  end.
Proof.
  unfold _build_job_details.
  destruct (schedule_details !! "name"%string) as [schedule_name|]; [|done].
  rewrite !lookup_insert_ne by done.
  destruct (schedule_details !! "job_names"%string) as [names|]; [|done].
  eexists. split_and!; [done| | | |].
  - rewrite lookup_delete_ne by done. rewrite lookup_insert_ne by done.
    by rewrite lookup_insert_eq.
  - rewrite lookup_delete_ne by done. by rewrite lookup_insert_eq.
  - by rewrite lookup_delete_eq.
  - intros key H1 H2 H3. rewrite lookup_delete_ne by done.
    by rewrite !lookup_insert_ne.
Qed.

End Jobs.
End AksExecutorLaws.

(** * The properties of the other files at concrete inputs *)

Module OtherInstances.
Import RLPolicy AksExecutor RLPolicyLaws AksExecutorLaws Fixtures.

Lemma get_actions_with_aux_pairs_the_arrays_witness :
  ∃ records,
    get_actions_with_aux [4; 5; 6] (Some [10; 20; 30]) (None : option (list Z))
    = Ok records
    ∧ length records = length [4; 5; 6]
    ∧ ∀ i, records !! i
           = aux_at [4; 5; 6] (Some [10; 20; 30]) (None : option (list Z)) i.
Proof.
  apply (get_actions_with_aux_pairs_the_arrays [4; 5; 6] (Some [10; 20; 30]) None).
  - simpl. lia.
  - done.
Defined.

Example records_of_three_actions :
  get_actions_with_aux [4; 5; 6] (Some [10; 20; 30]) (None : option (list Z))
  = Ok [mkActionWithAux 4 (Some 10) None; mkActionWithAux 5 (Some 20) None;
        mkActionWithAux 6 (Some 30) None]
  ∧ get_actions_with_aux [4; 5; 6] (Some [10; 20]) (None : option (list Z))
    = Raise IndexError.
Proof. split; reflexivity. Qed.

Example scale_listed_pools :
  let scale := scale_node (λ p, p.1.1) (λ p, p.1.2) (λ p, p.2) id pool_named
                 "maro" "maro-rg" listed_pools listed_sizes in
  scale 4 "Standard_D2s_v3"%string = Called []
  ∧ scale 3 "Standard_D2s_v3"%string
    = Called [scale_nodepool "maro-rg" "maro-aks" "pool3" 3]
  ∧ scale 1 "Standard_B2s"%string
    = Called [add_nodepool "maro-rg" "maro-aks" "poolStandard_B2s" 1
                "Standard_B2s"]
  ∧ scale 1 "Standard_A0"%string = BadRequestError.
Proof. split_and!; reflexivity. Qed.

End OtherInstances.
